(** * RSA from scratch: a shallow embedding of [crypto_math.py],
      [rsa/utils.py] and [rsa/rsa_core.py], and the properties of the
      arithmetic engine, the block codec and the cipher built on it.

    Python integers are unbounded, so they are [Z]; [//] and [%] are floor
    division and its remainder, which are [Z.div] and [Z.modulo] for a
    non-zero divisor (a zero divisor raises [ZeroDivisionError] in Python and
    is modelled as such).  A [bytes] object is a list of integers in
    [0, 256), a [str] a list of code points.  Loops and recursions that always
    terminate are defined by well-founded recursion; the searches that may run
    forever take fuel and answer [None] when it runs out. *)

From Stdlib Require Import ZArith Znumtheory Zwf List Lia Bool String Ascii.
From Stdlib Require Import DecimalString DecimalFacts DecimalPos.
From Stdlib Require Import Zmod.
From Equations Require Import Equations.
Import ListNotations.
Local Open Scope Z_scope.

(** ** Exceptions *)

Inductive exn : Type :=
| ValueError (msg : string)
| ZeroDivisionError
| UnicodeEncodeError.

Inductive outcome (A : Type) : Type :=
| Ok (a : A)
| Raise (e : exn).
Arguments Ok {A} a.
Arguments Raise {A} e.

Definition bind {A B : Type} (r : outcome A) (k : A -> outcome B) : outcome B :=
  match r with
  | Ok a => k a
  | Raise e => Raise e
  end.

Notation "x <- r ;; k" := (bind r (fun x => k))
  (at level 61, r at next level, right associativity).
Notation "' p <- r ;; k" := (bind r (fun x => let 'p := x in k))
  (at level 61, p pattern, r at next level, right associativity).

(** The two [ValueError]s the engine raises itself: the spec's
    [NoInverseError] and [KeyTooSmallError]. *)
Definition NoInverseError : exn := ValueError "Modular inverse does not exist".
Definition KeyTooSmallError : exn :=
  ValueError "Key size is too small to encrypt any data.".

(** A computation that may not terminate: [None] is "out of fuel". *)
Definition search (A : Type) : Type := option (outcome A).

Definition sbind {A B : Type} (r : search A) (k : A -> search B) : search B :=
  match r with
  | Some (Ok a) => k a
  | Some (Raise e) => Some (Raise e)
  | None => None
  end.

Notation "x <~ r ;; k" := (sbind r (fun x => k))
  (at level 61, r at next level, right associativity).
Notation "' p <~ r ;; k" := (sbind r (fun x => let 'p := x in k))
  (at level 61, p pattern, r at next level, right associativity).

Definition lift {A : Type} (r : outcome A) : search A := Some r.

(** The order of the well-founded recursions: [0 <= x < y] on [Z].  The
    generator keeps closed terms computing without unfolding the proof. *)
#[local] Instance Zwf_wf : WellFounded (Zwf 0) :=
  Acc_intro_generator 12 (Zwf_well_founded 0).

(** ** Python built-ins the code relies on *)

Module Py.

(** [str(x)] for an integer, and [len(str(x))]. *)
Definition str (x : Z) : string := NilZero.string_of_int (Z.to_int x).
Definition len_str (x : Z) : Z := Z.of_nat (String.length (str x)).

(** [n.bit_length()]. *)
Definition bit_length (n : Z) : Z :=
  if n =? 0 then 0 else Z.log2 (Z.abs n) + 1.

(** [range(start, stop, step)] for a positive step. *)
Definition range (start stop step : Z) : list Z :=
  map (fun k => start + Z.of_nat k * step)
      (seq 0 (Z.to_nat ((stop - start + step - 1) / step))).

(** [b[i:j]] for [0 <= i <= j] (the end is clamped to the length). *)
Definition slice (b : list Z) (i j : Z) : list Z :=
  firstn (Z.to_nat (j - i)) (skipn (Z.to_nat i) b).

(** [secrets.randbelow]: the entropy source is a stream of raw draws and a
    cursor; a draw is reduced into [0, k). *)
Record rng : Type := { draws : nat -> Z; cursor : nat }.

Definition randbelow (k : Z) (g : rng) : outcome (Z * rng) :=
  if k <=? 0 then Raise (ValueError "Upper bound must be positive.")
  else Ok (draws g (cursor g) mod k,
           {| draws := draws g; cursor := S (cursor g) |}).

(** [s.encode('utf-8')]: one code point. Surrogates are refused. *)
Definition utf8_encode_cp (c : Z) : outcome (list Z) :=
  if c <? 128 then Ok [c]
  else if c <? 2048 then Ok [192 + c / 64; 128 + c mod 64]
  else if (55296 <=? c) && (c <=? 57343) then Raise UnicodeEncodeError
  else if c <? 65536 then
    Ok [224 + c / 4096; 128 + (c / 64) mod 64; 128 + c mod 64]
  else
    Ok [240 + c / 262144; 128 + (c / 4096) mod 64;
        128 + (c / 64) mod 64; 128 + c mod 64].

Fixpoint utf8_encode (s : list Z) : outcome (list Z) :=
  match s with
  | [] => Ok []
  | c :: s' =>
      b <- utf8_encode_cp c ;;
      bs <- utf8_encode s' ;;
      Ok (b ++ bs)
  end.

Definition is_cont (b : Z) : bool := (128 <=? b) && (b <=? 191).

(** [b.decode('utf-8', errors='ignore')]: a well-formed sequence gives its
    code point; anything else is dropped, byte by byte (the bytes of an
    ill-formed sequence are dropped whether taken together or one at a time,
    as a continuation byte never starts a sequence). *)
Fixpoint utf8_decode_ignore (b : list Z) : list Z :=
  match b with
  | [] => []
  | b0 :: r0 =>
      if (0 <=? b0) && (b0 <? 128) then b0 :: utf8_decode_ignore r0
      else if (194 <=? b0) && (b0 <=? 223) then
        match r0 with
        | b1 :: r1 =>
            if is_cont b1
            then ((b0 - 192) * 64 + (b1 - 128)) :: utf8_decode_ignore r1
            else utf8_decode_ignore r0
        | [] => utf8_decode_ignore r0
        end
      else if (224 <=? b0) && (b0 <=? 239) then
        match r0 with
        | b1 :: b2 :: r2 =>
            if is_cont b1 && is_cont b2
               && (negb (b0 =? 224) || (160 <=? b1))
               && (negb (b0 =? 237) || (b1 <=? 159))
            then ((b0 - 224) * 4096 + (b1 - 128) * 64 + (b2 - 128))
                   :: utf8_decode_ignore r2
            else utf8_decode_ignore r0
        | _ => utf8_decode_ignore r0
        end
      else if (240 <=? b0) && (b0 <=? 244) then
        match r0 with
        | b1 :: b2 :: b3 :: r3 =>
            if is_cont b1 && is_cont b2 && is_cont b3
               && (negb (b0 =? 240) || (144 <=? b1))
               && (negb (b0 =? 244) || (b1 <=? 143))
            then ((b0 - 240) * 262144 + (b1 - 128) * 4096
                  + (b2 - 128) * 64 + (b3 - 128))
                   :: utf8_decode_ignore r3
            else utf8_decode_ignore r0
        | _ => utf8_decode_ignore r0
        end
      else utf8_decode_ignore r0
  end.

End Py.

Import Py.

(** ** Decimal length: what the termination of [karatsuba_multiply] needs *)

Lemma length_string_of_uint (d : Decimal.uint) :
  String.length (NilEmpty.string_of_uint d) = Decimal.nb_digits d.
Proof. induction d; simpl; congruence. Qed.

Lemma of_uint_acc_bounds (l : Decimal.uint) : forall acc : positive,
  Z.pos acc * 10 ^ Z.of_nat (Decimal.nb_digits l) <= Z.pos (Pos.of_uint_acc l acc)
  /\ Z.pos (Pos.of_uint_acc l acc) < (Z.pos acc + 1) * 10 ^ Z.of_nat (Decimal.nb_digits l).
Proof.
  induction l; intros acc; simpl Decimal.nb_digits;
    [ simpl; lia | .. ];
    rewrite Nat2Z.inj_succ, Z.pow_succ_r by lia;
    cbn [Pos.of_uint_acc];
    match goal with |- context [Pos.of_uint_acc l ?a] => destruct (IHl a) as [L U] end;
    pose proof (Z.pow_pos_nonneg 10 (Z.of_nat (Decimal.nb_digits l)) ltac:(lia) ltac:(lia));
    split; nia.
Qed.

Lemma of_uint_upper (d : Decimal.uint) :
  Z.of_N (Pos.of_uint d) < 10 ^ Z.of_nat (Decimal.nb_digits d).
Proof.
  induction d; simpl Decimal.nb_digits;
    [ simpl; lia | .. ];
    rewrite Nat2Z.inj_succ, Z.pow_succ_r by lia;
    pose proof (Z.pow_pos_nonneg 10 (Z.of_nat (Decimal.nb_digits d)) ltac:(lia) ltac:(lia));
    cbn [Pos.of_uint]; [ lia | .. ];
    match goal with |- context [Pos.of_uint_acc d ?a] =>
      destruct (of_uint_acc_bounds d a) as [L U] end;
    rewrite N2Z.inj_pos; nia.
Qed.

Lemma to_uint_lower (p : positive) :
  10 ^ (Z.of_nat (Decimal.nb_digits (Pos.to_uint p)) - 1) <= Z.pos p.
Proof.
  pose proof (DecimalPos.Unsigned.of_to p) as E.
  pose proof (DecimalPos.Unsigned.to_of (Pos.to_uint p)) as N.
  rewrite E in N. simpl N.to_uint in N.
  pose proof (DecimalPos.Unsigned.to_uint_nonzero p) as NZ.
  destruct (Pos.to_uint p) as [|l|l|l|l|l|l|l|l|l|l] eqn:D.
  1: { simpl in E. discriminate. }
  1: { exfalso. rewrite unorm_D0 in N.
       destruct (Decimal.uint_eq_dec l Decimal.Nil) as [->|Hl].
       - apply NZ. reflexivity.
       - pose proof (nb_digits_unorm l Hl) as Hle.
         rewrite <- N in Hle. simpl in Hle. lia. }
  all: simpl Decimal.nb_digits; rewrite Nat2Z.inj_succ, <- Z.add_1_r, Z.add_simpl_r;
    cbn [Pos.of_uint] in E; injection E as E; rewrite <- E;
    match goal with |- context [Pos.of_uint_acc ?l ?a] =>
      destruct (of_uint_acc_bounds l a) as [L U] end; lia.
Qed.

Lemma len_str_pos (p : positive) :
  len_str (Z.pos p) = Z.of_nat (Decimal.nb_digits (Pos.to_uint p)).
Proof.
  unfold len_str, str. simpl Z.to_int. unfold NilZero.string_of_int, NilZero.string_of_uint.
  pose proof (DecimalPos.Unsigned.to_uint_nonnil p).
  destruct (Pos.to_uint p) eqn:D; try congruence;
    rewrite length_string_of_uint; reflexivity.
Qed.

Lemma len_str_bounds (x : Z) :
  0 < x -> 10 ^ (len_str x - 1) <= x < 10 ^ len_str x.
Proof.
  intros Hx. destruct x as [|p|p]; try lia.
  rewrite len_str_pos. split.
  - apply to_uint_lower.
  - pose proof (of_uint_upper (Pos.to_uint p)) as U.
    rewrite DecimalPos.Unsigned.of_to in U. exact U.
Qed.

Lemma karatsuba_split (x y : Z) :
  10 <= x -> 10 <= y ->
  let P := 10 ^ (Z.max (len_str x) (len_str y) / 2) in
  10 <= P /\ (P <= x \/ P <= y).
Proof.
  intros Hx Hy P.
  destruct (len_str_bounds x ltac:(lia)) as [Lx Ux].
  destruct (len_str_bounds y ltac:(lia)) as [Ly Uy].
  assert (2 <= len_str x) as Sx.
  { destruct (Z_lt_dec (len_str x) 2) as [Hlt|]; [|lia].
    exfalso. assert (10 ^ len_str x <= 10 ^ 1)
      by (destruct (Z_lt_dec (len_str x) 0);
          [rewrite Z.pow_neg_r by lia; lia | apply Z.pow_le_mono_r; lia]).
    change (10 ^ 1) with 10 in *. lia. }
  assert (2 <= len_str y) as Sy.
  { destruct (Z_lt_dec (len_str y) 2) as [Hlt|]; [|lia].
    exfalso. assert (10 ^ len_str y <= 10 ^ 1)
      by (destruct (Z_lt_dec (len_str y) 0);
          [rewrite Z.pow_neg_r by lia; lia | apply Z.pow_le_mono_r; lia]).
    change (10 ^ 1) with 10 in *. lia. }
  set (s := Z.max (len_str x) (len_str y)) in *.
  assert (1 <= s / 2 <= s - 1) as Hm by (Z.div_mod_to_equations; lia).
  split.
  - change 10 with (10 ^ 1) at 1. apply Z.pow_le_mono_r; lia.
  - destruct (Z.max_spec (len_str x) (len_str y)) as [[_ E]|[_ E]]; fold s in E.
    + right. transitivity (10 ^ (len_str y - 1)); [|exact Ly].
      apply Z.pow_le_mono_r; lia.
    + left. transitivity (10 ^ (len_str x - 1)); [|exact Lx].
      apply Z.pow_le_mono_r; lia.
Qed.

(** ** crypto_math.py *)

Module CryptoMath.

(** The generator object of [lcg_prng(seed, bits)]: its constants and its
    state.  [seed] is [int(seed)], [bits] is not negative. *)
Record lcg : Type := { lcg_m : Z; lcg_a : Z; lcg_c : Z; current_seed : Z }.

Definition lcg_prng (seed bits : Z) : lcg :=
  {| lcg_m := 2 ^ bits; lcg_a := 2 ^ (bits / 2); lcg_c := 1;
     current_seed := seed |}.

(** [next(generator)]: one turn of the [while True] loop up to the [yield]. *)
Definition next (g : lcg) : Z * lcg :=
  let s := (lcg_a g * current_seed g + lcg_c g) mod lcg_m g in
  (s, {| lcg_m := lcg_m g; lcg_a := lcg_a g; lcg_c := lcg_c g;
         current_seed := s |}).

(** The [while y > 0] loop of [modexpo]. *)
Equations? modexpo_loop (result x y d : Z) : Z by wf y (Zwf 0) :=
  modexpo_loop result x y d with Z_lt_dec 0 y => {
    | left _ :=
        modexpo_loop (if Z.land y 1 =? 0 then result else (result * x) mod d)
                     ((x * x) mod d) (Z.shiftr y 1) d;
    | right _ := result }.
Proof.
  rewrite Z.shiftr_div_pow2 by lia.
  change (2 ^ 1) with 2.
  unfold Zwf. pose proof (Z.div_lt y 2). lia.
Qed.

(** [modexpo(x, y, d)]: square and multiply. *)
Definition modexpo (x y d : Z) : outcome Z :=
  if d =? 0 then Raise ZeroDivisionError
  else Ok (modexpo_loop 1 (x mod d) y d).

(** The squaring loop of [_miller_rabin_test]: [while d != n - 1]. *)
Fixpoint mr_loop (fuel : nat) (x d n : Z) : search bool :=
  match fuel with
  | O => None
  | S fuel' =>
      if negb (d =? n - 1) then
        let x := (x * x) mod n in
        let d := d * 2 in
        if x =? 1 then lift (Ok false)
        else if x =? n - 1 then lift (Ok true)
        else mr_loop fuel' x d n
      else lift (Ok false)
  end.

(** [_miller_rabin_test(d, n)]. *)
Definition _miller_rabin_test (fuel : nat) (d n : Z) (g : rng)
  : search (bool * rng) :=
  '(r, g) <~ lift (randbelow (n - 3) g) ;;
  let a := r + 2 in
  x <~ lift (modexpo a d n) ;;
  if (x =? 1) || (x =? n - 1) then lift (Ok (true, g))
  else
    b <~ mr_loop fuel x d n ;;
    lift (Ok (b, g)).

(** [while d % 2 == 0: d //= 2]. *)
Fixpoint halve_loop (fuel : nat) (d : Z) : search Z :=
  match fuel with
  | O => None
  | S fuel' =>
      if d mod 2 =? 0 then halve_loop fuel' (d / 2) else lift (Ok d)
  end.

(** [for _ in range(k): if not _miller_rabin_test(d, n): return False]. *)
Fixpoint witness_loop (fuel : nat) (k : nat) (d n : Z) (g : rng)
  : search (bool * rng) :=
  match k with
  | O => lift (Ok (true, g))
  | S k' =>
      '(b, g) <~ _miller_rabin_test fuel d n g ;;
      if negb b then lift (Ok (false, g))
      else witness_loop fuel k' d n g
  end.

(** [is_prime(n, k)]. *)
Definition is_prime (fuel : nat) (n k : Z) (g : rng) : search (bool * rng) :=
  if (n <=? 1) || (n =? 4) then lift (Ok (false, g))
  else if n <=? 3 then lift (Ok (true, g))
  else if n mod 2 =? 0 then lift (Ok (false, g))
  else
    d <~ halve_loop fuel (n - 1) ;;
    witness_loop fuel (Z.to_nat k) d n g.

(** [karatsuba_multiply(x, y)]. *)
Equations? karatsuba_multiply (x y : Z) : Z by wf (x + y) (Zwf 0) :=
  karatsuba_multiply x y with Z_lt_dec x 10, Z_lt_dec y 10 => {
    | left _, _ := x * y;
    | right _, left _ := x * y;
    | right _, right _ :=
        let s := Z.max (len_str x) (len_str y) in
        let m := s / 2 in
        let a := x / 10 ^ m in
        let b := x mod 10 ^ m in
        let c := y / 10 ^ m in
        let d := y mod 10 ^ m in
        let z0 := karatsuba_multiply b d in
        let z1 := karatsuba_multiply (a + b) (c + d) in
        let z2 := karatsuba_multiply a c in
        z2 * 10 ^ (2 * m) + (z1 - z2 - z0) * 10 ^ m + z0 }.
Proof.
  all: try clear z1; try clear z0; clear karatsuba_multiply;
    destruct (karatsuba_split x y ltac:(lia) ltac:(lia)) as [HP HQ];
    fold s in HP, HQ; fold m in HP, HQ;
    subst a b c d; revert HP HQ; generalize (10 ^ m); intros P HP HQ;
    pose proof (Z.div_mod x P ltac:(lia));
    pose proof (Z.div_mod y P ltac:(lia));
    pose proof (Z.mod_pos_bound x P ltac:(lia));
    pose proof (Z.mod_pos_bound y P ltac:(lia));
    assert (0 <= x / P) by (apply Z.div_pos; lia);
    assert (0 <= y / P) by (apply Z.div_pos; lia);
    unfold Zwf; destruct HQ; nia.
Qed.


(** [egcd(a, b)]: the recursive extended Euclidean algorithm. *)
Equations? egcd (a b : Z) : Z * Z * Z by wf (Z.abs a) (Zwf 0) :=
  egcd a b with Z.eq_dec a 0 => {
    | left _ := (b, 0, 1);
    | right _ with egcd (b mod a) a => {
        | (gcd, x1, y1) := (gcd, y1 - (b / a) * x1, x1) } }.
Proof.
  pose proof (Z.mod_pos_bound b a).
  pose proof (Z.mod_neg_bound b a).
  unfold Zwf. lia.
Qed.

(** [modinv(e, phi)]. *)
Definition modinv (e phi : Z) : outcome Z :=
  let '(g, x, _) := egcd e phi in
  if negb (g =? 1) then Raise NoInverseError
  else if phi =? 0 then Raise ZeroDivisionError
  else Ok (x mod phi).

(** [gcd(e, phi)]. *)
Definition gcd (e phi : Z) : Z :=
  let '(g, _, _) := egcd e phi in g.

End CryptoMath.

Import CryptoMath.

(** ** rsa/utils.py *)

Module Utils.

(** The first search loop of [generate_prime_pair]: draw until a candidate
    passes [is_prime]. *)
Fixpoint find_p (fuel : nat) (generator : lcg) (g : rng)
  : search (Z * lcg * rng) :=
  match fuel with
  | O => None
  | S fuel' =>
      let '(p, generator) := next generator in
      '(b, g) <~ is_prime fuel p 20 g ;;
      if b then lift (Ok (p, generator, g))
      else find_p fuel' generator g
  end.

(** The second loop: [if p != q and is_prime(q, 20): break]. *)
Fixpoint find_q (fuel : nat) (p : Z) (generator : lcg) (g : rng)
  : search (Z * lcg * rng) :=
  match fuel with
  | O => None
  | S fuel' =>
      let '(q, generator) := next generator in
      if negb (p =? q) then
        '(b, g) <~ is_prime fuel q 20 g ;;
        if b then lift (Ok (q, generator, g))
        else find_q fuel' p generator g
      else find_q fuel' p generator g
  end.

(** [generate_prime_pair(bits)]; [seed] is [time.time()] at the call. *)
Definition generate_prime_pair (fuel : nat) (bits seed : Z) (g : rng)
  : search (Z * Z * rng) :=
  let generator := lcg_prng seed bits in
  '(p, generator, g) <~ find_p fuel generator g ;;
  '(q, generator, g) <~ find_q fuel p generator g ;;
  lift (Ok (p, q, g)).

(** [bytes_to_int(byte_block)]: the loop over [enumerate(byte_block)]. *)
Fixpoint bytes_to_int_loop (integer i : Z) (byte_block : list Z) : Z :=
  match byte_block with
  | [] => integer
  | byte :: rest => bytes_to_int_loop (integer + byte * 256 ^ i) (i + 1) rest
  end.

Definition bytes_to_int (byte_block : list Z) : Z :=
  bytes_to_int_loop 0 0 byte_block.

(** The [while temp_int > 0] loop of [int_to_bytes]. *)
Equations? int_to_bytes_loop (byte_list : list Z) (temp_int : Z) : list Z
  by wf temp_int (Zwf 0) :=
  int_to_bytes_loop byte_list temp_int with Z_lt_dec 0 temp_int => {
    | left _ :=
        int_to_bytes_loop (byte_list ++ [temp_int mod 256]) (temp_int / 256);
    | right _ := byte_list }.
Proof.
  unfold Zwf. pose proof (Z.div_lt temp_int 256). lia.
Qed.

(** [int_to_bytes(integer)]. *)
Definition int_to_bytes (integer : Z) : list Z :=
  if integer =? 0 then [0] else int_to_bytes_loop [] integer.

End Utils.

Import Utils.

(** ** rsa/rsa_core.py *)

Module RsaCore.

Definition DEFAULT_E : Z := 65537.

(** [while gcd(e, phi) != 1: e = 3]. *)
Fixpoint exponent_loop (fuel : nat) (e phi : Z) : search Z :=
  match fuel with
  | O => None
  | S fuel' =>
      if negb (gcd e phi =? 1) then exponent_loop fuel' 3 phi
      else lift (Ok e)
  end.

(** The body of [generate_keys] once the prime pair is there. *)
Definition keys_of_primes (fuel : nat) (p q : Z)
  : search ((Z * Z) * (Z * Z)) :=
  let n := karatsuba_multiply p q in
  let phi := karatsuba_multiply (p - 1) (q - 1) in
  e <~ exponent_loop fuel DEFAULT_E phi ;;
  d <~ lift (modinv e phi) ;;
  let public_key := (e, n) in
  let private_key := (d, n) in
  lift (Ok (public_key, private_key)).

(** [generate_keys(bits)]. *)
Definition generate_keys (fuel : nat) (bits seed : Z) (g : rng)
  : search ((Z * Z) * (Z * Z)) :=
  let prime_bits := bits / 2 in
  '(p, q, _) <~ generate_prime_pair fuel prime_bits seed g ;;
  keys_of_primes fuel p q.

(** The [for i in range(0, len(message_bytes), max_block_size)] loop. *)
Fixpoint encrypt_loop (e n max_block_size : Z) (message_bytes : list Z)
    (indices : list Z) (encrypted_blocks : list Z) : outcome (list Z) :=
  match indices with
  | [] => Ok encrypted_blocks
  | i :: indices' =>
      let block := slice message_bytes i (i + max_block_size) in
      let m := bytes_to_int block in
      c <- modexpo m e n ;;
      encrypt_loop e n max_block_size message_bytes indices'
                   (encrypted_blocks ++ [c])
  end.

(** [encrypt(message, public_key)]. *)
Definition encrypt (message : list Z) (public_key : Z * Z)
  : outcome (list Z) :=
  let '(e, n) := public_key in
  let key_bytes := (bit_length n + 7) / 8 in
  let max_block_size := key_bytes - 1 in
  if max_block_size <=? 0 then Raise KeyTooSmallError
  else
    message_bytes <- utf8_encode message ;;
    encrypt_loop e n max_block_size message_bytes
      (range 0 (Z.of_nat (List.length message_bytes)) max_block_size) [].

(** The [for c in cipher_blocks] loop. *)
Fixpoint decrypt_loop (d n : Z) (cipher_blocks : list Z)
    (decrypted_bytes : list Z) : outcome (list Z) :=
  match cipher_blocks with
  | [] => Ok decrypted_bytes
  | c :: cipher_blocks' =>
      m <- modexpo c d n ;;
      let block_bytes := int_to_bytes m in
      decrypt_loop d n cipher_blocks' (decrypted_bytes ++ block_bytes)
  end.

(** [decrypt(cipher_blocks, private_key)]. *)
Definition decrypt (cipher_blocks : list Z) (private_key : Z * Z)
  : outcome (list Z) :=
  let '(d, n) := private_key in
  decrypted_bytes <- decrypt_loop d n cipher_blocks [] ;;
  Ok (utf8_decode_ignore decrypted_bytes).

End RsaCore.

Import RsaCore.

(** ** Vocabulary of the statements *)

(** A [bytes] object holds integers in [0, 256). *)
Definition is_bytes (b : list Z) : Prop := Forall (fun x => 0 <= x < 256) b.

(** The final (most significant) byte is not zero; the empty sequence has no
    final byte. *)
Definition ends_nonzero (b : list Z) : Prop := b = [] \/ last b 0 <> 0.

(** The blocks the loop of [encrypt] cuts out of the message bytes. *)
Definition blocks_of (max_block_size : Z) (message_bytes : list Z)
  : list (list Z) :=
  map (fun i => slice message_bytes i (i + max_block_size))
      (range 0 (Z.of_nat (List.length message_bytes)) max_block_size).

(** A [str]: code points up to U+10FFFF. *)
Definition is_str (s : list Z) : Prop := Forall (fun c => 0 <= c <= 1114111) s.

(** Text: a [str] without surrogate code points. *)
Definition is_text (s : list Z) : Prop :=
  Forall (fun c => 0 <= c <= 1114111 /\ ~ (55296 <= c <= 57343)) s.

(** The [j]-th run of [k] elements of a list. *)
Definition chunk (k : nat) (l : list Z) (j : nat) : list Z :=
  firstn k (skipn (j * k) l).

(** Primality of a concrete number, by trial division up to its square
    root. *)
Fixpoint trial_division (p : Z) (k : nat) : bool :=
  match k with
  | O => true
  | S k' => negb (p mod (Z.of_nat k' + 2) =? 0) && trial_division p k'
  end.

Definition prime_check (p : Z) : bool :=
  (1 <? p) && trial_division p (Z.to_nat (Z.sqrt p - 1)).

(** An entropy source whose draws are all zero. *)
Definition rng0 : rng := {| draws := fun _ => 0; cursor := 0%nat |}.

(** The generator after [k] calls of [next], and its [k]-th draw (from 1). *)
Fixpoint advance (k : nat) (generator : lcg) : lcg :=
  match k with
  | O => generator
  | S k' => snd (next (advance k' generator))
  end.

Definition draw (k : nat) (generator : lcg) : Z :=
  current_seed (advance k generator).

(** The number of bytes of the UTF-8 encoding of a code point, and of a
    string. *)
Definition utf8_cp_length (c : Z) : nat :=
  if c <? 128 then 1 else if c <? 2048 then 2 else if c <? 65536 then 3 else 4.

Definition utf8_length (s : list Z) : nat := list_sum (map utf8_cp_length s).

(** A block that [int_to_bytes] gives back: the single zero byte, or a
    sequence whose final byte is not zero. *)
Definition canonical_block (block : list Z) : Prop :=
  block = [0] \/ last block 0 <> 0.

(** What [decrypt] puts in the place of a block. *)
Definition stripped (block : list Z) : list Z :=
  int_to_bytes (bytes_to_int block).

(** * Properties *)

(** ** The extended Euclidean algorithm *)

Lemma egcd_bezout (a b : Z) :
  forall g x y, egcd a b = (g, x, y) -> a * x + b * y = g.
Proof.
  funelim (egcd a b); intros g x y E.
  - inversion E; subst. lia.
  - inversion E; subst. clear E.
    specialize (Hind _ _ _ Heq).
    pose proof (Z.div_mod b a n). nia.
Qed.

Lemma egcd_gcd (a b : Z) :
  0 <= a -> 0 <= b -> forall g x y, egcd a b = (g, x, y) -> g = Z.gcd a b.
Proof.
  funelim (egcd a b); intros Ha Hb g x y E.
  - inversion E; subst. rewrite Z.gcd_0_l, Z.abs_eq; lia.
  - inversion E; subst. clear E.
    pose proof (Z.mod_pos_bound b a ltac:(lia)).
    rewrite (Hind ltac:(lia) ltac:(lia) _ _ _ Heq).
    rewrite Z.gcd_mod by lia. reflexivity.
Qed.

Lemma gcd_is_Zgcd (e phi : Z) : 0 <= e -> 0 <= phi -> gcd e phi = Z.gcd e phi.
Proof.
  intros He Hphi. unfold gcd.
  destruct (egcd e phi) as [[g x] y] eqn:E.
  eapply egcd_gcd; eauto.
Qed.

(** C7. For all [a >= 0] and [b >= 0], not both zero, [egcd a b] is a triple
    [(g, x, y)] with [a * x + b * y = g], and [g] is the greatest common
    divisor of [a] and [b]: it divides both, and every common divisor
    divides it.  The function [gcd] returns the same [g]. *)
Theorem egcd_correct (a b : Z) :
  0 <= a -> 0 <= b -> ~ (a = 0 /\ b = 0) ->
  exists g x y,
    egcd a b = (g, x, y) /\ a * x + b * y = g /\ g = Z.gcd a b
    /\ 0 < g /\ (g | a) /\ (g | b)
    /\ (forall c, (c | a) -> (c | b) -> (c | g))
    /\ gcd a b = g.
Proof.
  intros Ha Hb Hnz.
  destruct (egcd a b) as [[g x] y] eqn:E.
  exists g, x, y.
  pose proof (egcd_gcd a b Ha Hb _ _ _ E) as G.
  split; [reflexivity|].
  split; [eapply egcd_bezout; eauto|].
  split; [exact G|].
  split.
  { subst g. pose proof (Z.gcd_nonneg a b).
    destruct (Z.eq_dec (Z.gcd a b) 0) as [Z0|]; [|lia].
    apply Z.gcd_eq_0 in Z0. tauto. }
  split; [subst g; apply Z.gcd_divide_l|].
  split; [subst g; apply Z.gcd_divide_r|].
  split; [intros c Hca Hcb; subst g; apply Z.gcd_greatest; assumption|].
  unfold gcd. rewrite E. reflexivity.
Qed.

Lemma egcd_correct_witness :
  exists g x y,
    egcd 240 46 = (g, x, y) /\ 240 * x + 46 * y = g /\ g = Z.gcd 240 46
    /\ 0 < g /\ (g | 240) /\ (g | 46)
    /\ (forall c, (c | 240) -> (c | 46) -> (c | g))
    /\ gcd 240 46 = g.
Proof. apply (egcd_correct 240 46); lia. Defined.

(** ** The modular inverse *)

(** C6. [modinv e phi] raises the no-inverse error exactly when
    [gcd(e, phi) <> 1]; for a coprime pair with [phi > 1] it returns [x] in
    [[0, phi)] with [(e * x) mod phi = 1]. *)
Theorem modinv_correct (e phi : Z) :
  0 <= e -> 0 <= phi ->
  (modinv e phi = Raise NoInverseError <-> Z.gcd e phi <> 1)
  /\ (Z.gcd e phi = 1 -> 1 < phi ->
      exists x, modinv e phi = Ok x /\ 0 <= x < phi /\ (e * x) mod phi = 1).
Proof.
  intros He Hphi. unfold modinv.
  destruct (egcd e phi) as [[g x] y] eqn:E.
  pose proof (egcd_gcd e phi He Hphi _ _ _ E) as G.
  pose proof (egcd_bezout e phi _ _ _ E) as B.
  split.
  - destruct (Z.eqb_spec g 1) as [H1|H1]; simpl.
    + split; [|lia]. destruct (phi =? 0); discriminate.
    + split; [lia | reflexivity].
  - intros C Hp. exists (x mod phi).
    assert (g = 1) as -> by lia. simpl.
    destruct (Z.eqb_spec phi 0); [lia|].
    split; [reflexivity|]. split; [apply Z.mod_pos_bound; lia|].
    rewrite Z.mul_mod_idemp_r by lia.
    replace (e * x) with (1 + (- y) * phi) by lia.
    rewrite Z.mod_add by lia. apply Z.mod_small. lia.
Qed.

Lemma modinv_correct_witness :
  (modinv 17 3120 = Raise NoInverseError <-> Z.gcd 17 3120 <> 1)
  /\ (Z.gcd 17 3120 = 1 -> 1 < 3120 ->
      exists x, modinv 17 3120 = Ok x /\ 0 <= x < 3120
                /\ (17 * x) mod 3120 = 1).
Proof. apply (modinv_correct 17 3120); lia. Defined.

(** ** Modular exponentiation *)

Lemma modexpo_loop_spec (result x y d : Z) :
  0 < d -> 0 <= result < d -> 0 <= y ->
  modexpo_loop result x y d = (result * x ^ y) mod d.
Proof.
  funelim (modexpo_loop result x y d); intros Hd Hr Hy.
  - assert (0 <= Z.shiftr y 1) as Hs by (apply Z.shiftr_nonneg; lia).
    assert (Z.shiftr y 1 = y / 2) as S2
      by (rewrite Z.shiftr_div_pow2 by lia; reflexivity).
    assert (Z.land y 1 = y mod 2) as L2
      by (change 1 with (Z.ones 1); rewrite Z.land_ones by lia; reflexivity).
    rewrite H; try lia.
    + rewrite S2, L2.
      pose proof (Z.div_mod y 2 ltac:(lia)) as DM.
      pose proof (Z.mod_pos_bound y 2 ltac:(lia)) as MB.
      assert (0 <= y / 2) by (apply Z.div_pos; lia).
      rewrite <- Z.mul_mod_idemp_r, Z.mod_pow_l, Z.mul_mod_idemp_r by lia.
      rewrite <- Z.pow_2_r, <- Z.pow_mul_r by lia.
      destruct (Z.eqb_spec (y mod 2) 0) as [E0|E0].
      * f_equal. f_equal. f_equal. lia.
      * rewrite Z.mul_mod_idemp_l by lia.
        assert (x ^ y = x * x ^ (2 * (y / 2))) as ->.
        { rewrite <- Z.pow_succ_r by lia. f_equal. lia. }
        f_equal. ring.
    + destruct (Z.land y 1 =? 0); [lia|]. apply Z.mod_pos_bound; lia.
  - assert (y = 0) as -> by lia.
    rewrite Z.pow_0_r, Z.mul_1_r. symmetry. apply Z.mod_small. lia.
Qed.

Lemma modexpo_spec (x y d : Z) :
  0 <= y -> 1 < d -> modexpo x y d = Ok (x ^ y mod d).
Proof.
  intros Hy Hd. unfold modexpo.
  destruct (Z.eqb_spec d 0); [lia|].
  rewrite modexpo_loop_spec by lia.
  rewrite Z.mul_1_l, Z.mod_pow_l. reflexivity.
Qed.

(** C5. For [base >= 0], [exponent >= 0] and [modulus > 1], [modexpo]
    returns a value in [[0, modulus)] equal to
    [base ^ exponent mod modulus]. *)
Theorem modexpo_correct (base exponent modulus : Z) :
  0 <= base -> 0 <= exponent -> 1 < modulus ->
  exists r, modexpo base exponent modulus = Ok r
            /\ 0 <= r < modulus
            /\ r = base ^ exponent mod modulus.
Proof.
  intros _ He Hm. exists (base ^ exponent mod modulus).
  split; [apply modexpo_spec; assumption|].
  split; [apply Z.mod_pos_bound; lia | reflexivity].
Qed.

Lemma modexpo_correct_witness :
  exists r, modexpo 4 13 497 = Ok r /\ 0 <= r < 497 /\ r = 4 ^ 13 mod 497.
Proof. apply (modexpo_correct 4 13 497); lia. Defined.

(** ** Karatsuba multiplication *)

Lemma karatsuba_multiply_mul (x y : Z) : karatsuba_multiply x y = x * y.
Proof.
  funelim (karatsuba_multiply x y); try reflexivity.
  rewrite H, H0, H1.
  set (m := Z.max (len_str x) (len_str y) / 2).
  assert (0 <= m).
  { subst m. apply Z.div_pos; [|lia].
    unfold len_str. lia. }
  assert (0 < 10 ^ m) by (apply Z.pow_pos_nonneg; lia).
  rewrite (Z.div_mod x (10 ^ m)) at 7 by lia.
  rewrite (Z.div_mod y (10 ^ m)) at 7 by lia.
  replace (2 * m) with (m + m) by lia. rewrite Z.pow_add_r by lia.
  ring.
Qed.



(** ** The textbook instance *)

(** C9. With [p = 61], [q = 53] (so [n = 3233], [phi = 3120]) and [e = 17]:
    [modinv 17 3120 = 2753], [modexpo 65 17 3233 = 2790] and
    [modexpo 2790 2753 3233 = 65]. *)
Theorem textbook_instance :
  karatsuba_multiply 61 53 = 3233
  /\ karatsuba_multiply (61 - 1) (53 - 1) = 3120
  /\ modinv 17 3120 = Ok 2753
  /\ modexpo 65 17 3233 = Ok 2790
  /\ modexpo 2790 2753 3233 = Ok 65.
Proof. repeat split; vm_compute; reflexivity. Qed.

(** ** The block codec *)

Lemma bytes_to_int_loop_shift (byte_block : list Z) : forall integer i,
  0 <= i ->
  bytes_to_int_loop integer i byte_block
  = integer + 256 ^ i * bytes_to_int byte_block.
Proof.
  unfold bytes_to_int.
  induction byte_block as [|byte rest IH]; intros integer i Hi;
    cbn [bytes_to_int_loop].
  - lia.
  - rewrite IH by lia. rewrite (IH (0 + byte * 256 ^ 0) (0 + 1)) by lia.
    rewrite Z.pow_add_r by lia. change (256 ^ (0 + 1)) with 256.
    change (256 ^ 0) with 1. change (256 ^ 1) with 256. ring.
Qed.

Lemma bytes_to_int_cons (byte : Z) (rest : list Z) :
  bytes_to_int (byte :: rest) = byte + 256 * bytes_to_int rest.
Proof.
  unfold bytes_to_int at 1. cbn [bytes_to_int_loop].
  rewrite bytes_to_int_loop_shift by lia.
  change (256 ^ 0) with 1.
  change (256 ^ (0 + 1)) with 256. lia.
Qed.

Lemma bytes_to_int_nonneg (b : list Z) : is_bytes b -> 0 <= bytes_to_int b.
Proof.
  induction 1 as [|x l Hx Hl IH].
  - unfold bytes_to_int. simpl. lia.
  - rewrite bytes_to_int_cons. lia.
Qed.

Lemma bytes_to_int_upper (b : list Z) :
  is_bytes b -> bytes_to_int b < 256 ^ Z.of_nat (List.length b).
Proof.
  induction 1 as [|x l Hx Hl IH].
  - unfold bytes_to_int. simpl. lia.
  - rewrite bytes_to_int_cons. simpl List.length.
    rewrite Nat2Z.inj_succ, Z.pow_succ_r by lia. lia.
Qed.

Lemma int_to_bytes_loop_unfold (byte_list : list Z) (temp_int : Z) :
  int_to_bytes_loop byte_list temp_int
  = if Z_lt_dec 0 temp_int
    then int_to_bytes_loop (byte_list ++ [temp_int mod 256]) (temp_int / 256)
    else byte_list.
Proof.
  funelim (int_to_bytes_loop byte_list temp_int); rewrite Heq; reflexivity.
Qed.

Lemma int_to_bytes_loop_app (temp_int : Z) : forall byte_list,
  int_to_bytes_loop byte_list temp_int
  = byte_list ++ int_to_bytes_loop [] temp_int.
Proof.
  induction temp_int as [t IH] using (well_founded_induction (Zwf_well_founded 0)).
  intros byte_list.
  rewrite (int_to_bytes_loop_unfold byte_list), (int_to_bytes_loop_unfold []).
  destruct (Z_lt_dec 0 t) as [Ht|Ht].
  - assert (Zwf 0 (t / 256) t) as W
      by (unfold Zwf; pose proof (Z.div_lt t 256); lia).
    rewrite (IH _ W (byte_list ++ [t mod 256])), (IH _ W ([] ++ [t mod 256])).
    rewrite <- List.app_assoc. reflexivity.
  - rewrite List.app_nil_r. reflexivity.
Qed.

Lemma int_to_bytes_loop_pos (t : Z) :
  0 < t -> int_to_bytes_loop [] t = (t mod 256) :: int_to_bytes_loop [] (t / 256).
Proof.
  intros Ht. rewrite int_to_bytes_loop_unfold at 1.
  destruct (Z_lt_dec 0 t); [|lia].
  rewrite int_to_bytes_loop_app. reflexivity.
Qed.

Lemma int_to_bytes_loop_nonpos (t : Z) : t <= 0 -> int_to_bytes_loop [] t = [].
Proof.
  intros Ht. rewrite int_to_bytes_loop_unfold.
  destruct (Z_lt_dec 0 t); [lia | reflexivity].
Qed.

Lemma bytes_to_int_loop_digits (t : Z) :
  0 <= t -> bytes_to_int (int_to_bytes_loop [] t) = t.
Proof.
  induction t as [t IH] using (well_founded_induction (Zwf_well_founded 0)).
  intros Ht. destruct (Z_lt_dec 0 t) as [Hp|Hp].
  - rewrite int_to_bytes_loop_pos, bytes_to_int_cons by lia.
    rewrite IH.
    + pose proof (Z.div_mod t 256 ltac:(lia)). lia.
    + unfold Zwf. pose proof (Z.div_lt t 256). lia.
    + apply Z.div_pos; lia.
  - rewrite int_to_bytes_loop_nonpos by lia. unfold bytes_to_int. simpl. lia.
Qed.

(** C10. For every integer [n >= 0], zero included,
    [bytes_to_int (int_to_bytes n) = n]. *)
Theorem bytes_to_int_int_to_bytes (n : Z) :
  0 <= n -> bytes_to_int (int_to_bytes n) = n.
Proof.
  intros Hn. unfold int_to_bytes.
  destruct (Z.eqb_spec n 0) as [->|Hz].
  - reflexivity.
  - apply bytes_to_int_loop_digits. exact Hn.
Qed.

Lemma bytes_to_int_int_to_bytes_witness :
  bytes_to_int (int_to_bytes 0) = 0
  /\ bytes_to_int (int_to_bytes 65536) = 65536.
Proof.
  split; [apply (bytes_to_int_int_to_bytes 0) | apply (bytes_to_int_int_to_bytes 65536)]; lia.
Defined.

Lemma bytes_to_int_pos (b : list Z) :
  is_bytes b -> b <> [] -> last b 0 <> 0 -> 0 < bytes_to_int b.
Proof.
  induction 1 as [|x l Hx Hl IH]; intros Hne Hlast; [congruence|].
  rewrite bytes_to_int_cons.
  destruct l as [|y l'].
  - simpl in Hlast. unfold bytes_to_int. simpl. lia.
  - assert (0 < bytes_to_int (y :: l')) by (apply IH; [discriminate | exact Hlast]).
    lia.
Qed.

Lemma digits_bytes_to_int (b : list Z) :
  is_bytes b -> ends_nonzero b ->
  int_to_bytes_loop [] (bytes_to_int b) = b.
Proof.
  induction 1 as [|x l Hx Hl IH]; intros Hlast.
  - rewrite int_to_bytes_loop_nonpos; [reflexivity|].
    unfold bytes_to_int. simpl. lia.
  - destruct Hlast as [Hnil|Hlast]; [discriminate|].
    assert (0 <= bytes_to_int l) as Hl0 by (apply bytes_to_int_nonneg; exact Hl).
    assert (ends_nonzero l) as El.
    { destruct l; [left; reflexivity | right; exact Hlast]. }
    assert (0 < bytes_to_int (x :: l)) as Hp
      by (apply bytes_to_int_pos; [constructor; assumption | discriminate | exact Hlast]).
    rewrite int_to_bytes_loop_pos by exact Hp.
    rewrite bytes_to_int_cons in *.
    replace ((x + 256 * bytes_to_int l) mod 256) with x
      by (Z.div_mod_to_equations; lia).
    replace ((x + 256 * bytes_to_int l) / 256) with (bytes_to_int l)
      by (Z.div_mod_to_equations; lia).
    rewrite IH by exact El. reflexivity.
Qed.

(** C8, as the code has it.  For every non-empty byte sequence whose final
    (most significant) byte is not zero,
    [int_to_bytes (bytes_to_int b) = b]. *)
Theorem int_to_bytes_bytes_to_int (b : list Z) :
  is_bytes b -> b <> [] -> last b 0 <> 0 ->
  int_to_bytes (bytes_to_int b) = b.
Proof.
  intros Hb Hne Hlast. unfold int_to_bytes.
  pose proof (bytes_to_int_pos b Hb Hne Hlast) as Hp.
  destruct (Z.eqb_spec (bytes_to_int b) 0); [lia|].
  apply digits_bytes_to_int; [exact Hb | right; exact Hlast].
Qed.

Lemma int_to_bytes_bytes_to_int_witness :
  int_to_bytes (bytes_to_int [72; 0; 255; 1]) = [72; 0; 255; 1].
Proof.
  apply (int_to_bytes_bytes_to_int [72; 0; 255; 1]).
  - repeat constructor; lia.
  - discriminate.
  - simpl. lia.
Defined.

(** C8 as stated fails on the empty sequence, which has no zero final byte:
    it encodes to [0], and [0] decodes to the single byte [0]. *)
Lemma int_to_bytes_bytes_to_int_empty :
  is_bytes [] /\ ends_nonzero []
  /\ int_to_bytes (bytes_to_int []) = [0]
  /\ int_to_bytes (bytes_to_int []) <> [].
Proof.
  split; [constructor|]. split; [left; reflexivity|].
  split; [reflexivity | discriminate].
Qed.

(** ** Blocks *)

Section Chunks.
Variable k : nat.
Hypothesis k_pos : (0 < k)%nat.

Lemma chunk_succ (l : list Z) (j : nat) : chunk k l (S j) = chunk k (skipn k l) j.
Proof.
  unfold chunk. rewrite skipn_skipn. f_equal. f_equal. simpl. lia.
Qed.

Lemma chunks_concat : forall (cnt : nat) (l : list Z),
  (List.length l <= cnt * k)%nat ->
  List.concat (map (chunk k l) (seq 0 cnt)) = l.
Proof.
  induction cnt as [|cnt IH]; intros l Hl.
  - simpl in *. destruct l; [reflexivity | simpl in Hl; lia].
  - cbn [seq map List.concat]. rewrite <- seq_shift, map_map.
    rewrite (map_ext _ (chunk k (skipn k l))) by (intros j; apply chunk_succ).
    rewrite IH by (rewrite length_skipn; simpl in Hl; lia).
    unfold chunk. simpl. apply firstn_skipn.
Qed.

Lemma chunk_length (l : list Z) (j : nat) :
  (j * k < List.length l)%nat ->
  (0 < List.length (chunk k l j) <= k)%nat.
Proof.
  intros Hj. unfold chunk. rewrite length_firstn, length_skipn. lia.
Qed.

Lemma chunk_incl (l : list Z) (j : nat) (x : Z) : In x (chunk k l j) -> In x l.
Proof.
  unfold chunk. intros H.
  rewrite <- (firstn_skipn (j * k) l). apply in_or_app. right.
  rewrite <- (firstn_skipn k (skipn (j * k) l)). apply in_or_app. left.
  exact H.
Qed.
End Chunks.

Lemma last_In (b : list Z) (d : Z) : b <> [] -> In (last b d) b.
Proof.
  intros Hne. rewrite (app_removelast_last d Hne) at 2.
  apply in_or_app. right. left. reflexivity.
Qed.

Lemma blocks_of_chunks (max_block_size : Z) (message_bytes : list Z) :
  0 < max_block_size ->
  blocks_of max_block_size message_bytes
  = map (chunk (Z.to_nat max_block_size) message_bytes)
        (seq 0 (Z.to_nat ((Z.of_nat (List.length message_bytes)
                           + max_block_size - 1) / max_block_size))).
Proof.
  intros Hk. unfold blocks_of, range, slice, chunk.
  rewrite map_map. rewrite Z.sub_0_r.
  apply map_ext. intros j.
  replace (0 + Z.of_nat j * max_block_size + max_block_size
           - (0 + Z.of_nat j * max_block_size)) with max_block_size by lia.
  rewrite Z.add_0_l, Z2Nat.inj_mul, Nat2Z.id by lia. reflexivity.
Qed.

Lemma blocks_of_spec (max_block_size : Z) (message_bytes : list Z) :
  0 < max_block_size ->
  List.concat (blocks_of max_block_size message_bytes) = message_bytes
  /\ Forall (fun block =>
               (0 < List.length block <= Z.to_nat max_block_size)%nat
               /\ forall x, In x block -> In x message_bytes)
            (blocks_of max_block_size message_bytes).
Proof.
  intros Hk. rewrite blocks_of_chunks by exact Hk.
  set (k := Z.to_nat max_block_size).
  set (L := Z.of_nat (List.length message_bytes)).
  set (c := (L + max_block_size - 1) / max_block_size).
  assert (0 < k)%nat as Hk' by (subst k; lia).
  assert (L <= c * max_block_size /\ (0 < c -> (c - 1) * max_block_size < L)) as [Hc1 Hc2].
  { subst c. pose proof (Z.div_mod (L + max_block_size - 1) max_block_size ltac:(lia)).
    pose proof (Z.mod_pos_bound (L + max_block_size - 1) max_block_size ltac:(lia)).
    split; [|intros _]; nia. }
  assert (0 <= c) by (subst c; apply Z.div_pos; subst L; lia).
  split.
  - apply chunks_concat; [exact Hk'|].
    apply Nat2Z.inj_le. rewrite Nat2Z.inj_mul. subst k.
    rewrite !Z2Nat.id by lia. exact Hc1.
  - apply Forall_forall. intros block Hin.
    apply in_map_iff in Hin. destruct Hin as [j [<- Hj]].
    apply in_seq in Hj. split.
    + apply chunk_length; [exact Hk'|].
      apply Nat2Z.inj_lt. rewrite Nat2Z.inj_mul. subst k.
      rewrite Z2Nat.id by lia. fold L. nia.
    + intros x. apply chunk_incl.
Qed.

(** ** UTF-8 *)

Lemma utf8_encode_cp_bytes (c : Z) (b : list Z) :
  0 <= c <= 1114111 -> utf8_encode_cp c = Ok b -> is_bytes b.
Proof.
  intros Hc E.
  enough (match utf8_encode_cp c with Ok b' => is_bytes b' | Raise _ => True end)
    as G by (rewrite E in G; exact G).
  clear E. unfold utf8_encode_cp, is_bytes.
  destruct (Z.ltb_spec c 128); [|destruct (Z.ltb_spec c 2048);
    [|destruct ((55296 <=? c) && (c <=? 57343)); [exact I|];
      destruct (Z.ltb_spec c 65536)]];
    repeat (apply Forall_cons || apply Forall_nil); cbv beta;
    Z.div_mod_to_equations; lia.
Qed.

Lemma utf8_encode_bytes (s : list Z) : forall b,
  is_str s -> utf8_encode s = Ok b -> is_bytes b.
Proof.
  induction s as [|c s IH]; intros b Hs E; simpl in E.
  - inversion E. constructor.
  - inversion Hs as [|? ? Hc Hs']; subst.
    destruct (utf8_encode_cp c) as [b0|] eqn:E0; [|discriminate].
    destruct (utf8_encode s) as [bs|] eqn:E1; [|discriminate].
    simpl in E. injection E as <-.
    apply Forall_app. split.
    + eapply utf8_encode_cp_bytes; eauto.
    + apply IH; auto.
Qed.

Lemma utf8_encode_raises (s : list Z) (e : exn) :
  utf8_encode s = Raise e -> e = UnicodeEncodeError.
Proof.
  induction s as [|c s IH]; simpl; [discriminate|].
  destruct (utf8_encode_cp c) as [b0|e0] eqn:E0; simpl.
  - destruct (utf8_encode s) as [bs|e1]; simpl; [discriminate|].
    intros [= <-]. apply IH. reflexivity.
  - intros [= <-]. unfold utf8_encode_cp in E0.
    destruct (c <? 128); [discriminate|].
    destruct (c <? 2048); [discriminate|].
    destruct ((55296 <=? c) && (c <=? 57343)); [congruence|].
    destruct (c <? 65536); discriminate.
Qed.

(** ** Encryption *)

Lemma bit_length_spec (n : Z) :
  0 < n -> 2 ^ (bit_length n - 1) <= n < 2 ^ bit_length n.
Proof.
  intros Hn. unfold bit_length.
  destruct (Z.eqb_spec n 0); [lia|].
  rewrite Z.abs_eq by lia.
  pose proof (Z.log2_spec n Hn) as S.
  replace (Z.log2 n + 1 - 1) with (Z.log2 n) by lia.
  rewrite <- Z.add_1_r in S. exact S.
Qed.

Lemma bit_length_nonneg (n : Z) : 0 <= bit_length n.
Proof.
  unfold bit_length. destruct (n =? 0); [lia|].
  pose proof (Z.log2_nonneg (Z.abs n)). lia.
Qed.

Lemma max_block_size_small (n : Z) :
  (bit_length n + 7) / 8 - 1 <= 0 <-> bit_length n <= 8.
Proof. split; intros H; Z.div_mod_to_equations; lia. Qed.

Lemma modexpo_nonzero (x y d : Z) :
  d <> 0 -> modexpo x y d = Ok (modexpo_loop 1 (x mod d) y d).
Proof.
  intros Hd. unfold modexpo. destruct (Z.eqb_spec d 0); [contradiction|reflexivity].
Qed.

Lemma encrypt_loop_spec (e n max_block_size : Z) (message_bytes : list Z) :
  n <> 0 ->
  forall indices encrypted_blocks,
    encrypt_loop e n max_block_size message_bytes indices encrypted_blocks
    = Ok (encrypted_blocks
          ++ map (fun i =>
                    modexpo_loop 1
                      (bytes_to_int (slice message_bytes i (i + max_block_size))
                       mod n) e n) indices).
Proof.
  intros Hn. induction indices as [|i indices IH]; intros acc; simpl.
  - rewrite List.app_nil_r. reflexivity.
  - rewrite modexpo_nonzero by exact Hn. simpl.
    rewrite IH, <- List.app_assoc. reflexivity.
Qed.

Lemma encrypt_unfold (message : list Z) (e n : Z) :
  0 < (bit_length n + 7) / 8 - 1 ->
  encrypt message (e, n)
  = message_bytes <- utf8_encode message ;;
    Ok (map (fun block => modexpo_loop 1 (bytes_to_int block mod n) e n)
            (blocks_of ((bit_length n + 7) / 8 - 1) message_bytes)).
Proof.
  intros Hk. unfold encrypt.
  destruct (Z.leb_spec ((bit_length n + 7) / 8 - 1) 0); [lia|].
  assert (n <> 0) as Hn.
  { intros Hz. subst n. vm_compute in Hk. discriminate. }
  destruct (utf8_encode message) as [message_bytes|]; [|reflexivity].
  simpl. rewrite encrypt_loop_spec by exact Hn.
  unfold blocks_of. rewrite map_map. reflexivity.
Qed.

Lemma encrypt_key_too_small (message : list Z) (e n : Z) :
  encrypt message (e, n) = Raise KeyTooSmallError
  <-> (bit_length n + 7) / 8 - 1 <= 0.
Proof.
  split.
  - intros E.
    destruct (Z_le_gt_dec ((bit_length n + 7) / 8 - 1) 0) as [H|H]; [exact H|].
    rewrite encrypt_unfold in E by lia.
    destruct (utf8_encode message) eqn:U; simpl in E; [discriminate|].
    apply utf8_encode_raises in U. subst. discriminate.
  - intros H. unfold encrypt.
    destruct (Z.leb_spec ((bit_length n + 7) / 8 - 1) 0); [reflexivity | lia].
Qed.

Lemma block_below_modulus (n : Z) (block : list Z) :
  0 < n -> is_bytes block ->
  (List.length block <= Z.to_nat ((bit_length n + 7) / 8 - 1))%nat ->
  0 <= bytes_to_int block < n.
Proof.
  intros Hn Hb Hlen.
  split; [apply bytes_to_int_nonneg; exact Hb|].
  pose proof (bytes_to_int_upper block Hb) as U.
  pose proof (bit_length_spec n Hn) as [L _].
  pose proof (bit_length_nonneg n).
  eapply Z.lt_le_trans; [exact U|].
  eapply Z.le_trans; [|exact L].
  change 256 with (2 ^ 8). rewrite <- Z.pow_mul_r by lia.
  apply Z.pow_le_mono_r; [lia|].
  assert (8 * ((bit_length n + 7) / 8) <= bit_length n + 7)
    by (Z.div_mod_to_equations; lia).
  assert (1 <= bit_length n).
  { unfold bit_length. destruct (Z.eqb_spec n 0); [lia|].
    pose proof (Z.log2_nonneg (Z.abs n)). lia. }
  lia.
Qed.

(** C3. For every public key [(e, n)] and message, [encrypt] raises the
    key-too-small error exactly when [ceil(bitlength(n) / 8) - 1 <= 0], that
    is when [bitlength(n) <= 8]; otherwise the UTF-8 bytes of the message are
    cut, in order, into non-empty blocks of at most
    [ceil(bitlength(n) / 8) - 1] bytes, the little-endian integer of every
    block is below [n], and the result is the list of the blocks'
    [modexpo]. *)
Theorem encrypt_blocks (e n : Z) (message : list Z) :
  0 < n -> is_str message ->
  let max_block_size := (bit_length n + 7) / 8 - 1 in
  (encrypt message (e, n) = Raise KeyTooSmallError <-> max_block_size <= 0)
  /\ (max_block_size <= 0 <-> bit_length n <= 8)
  /\ (0 < max_block_size ->
      forall message_bytes, utf8_encode message = Ok message_bytes ->
      let blocks := blocks_of max_block_size message_bytes in
      List.concat blocks = message_bytes
      /\ Forall (fun block =>
                   (0 < List.length block <= Z.to_nat max_block_size)%nat
                   /\ 0 <= bytes_to_int block < n) blocks
      /\ exists encrypted_blocks,
           encrypt message (e, n) = Ok encrypted_blocks
           /\ Forall2 (fun block c => modexpo (bytes_to_int block) e n = Ok c)
                      blocks encrypted_blocks).
Proof.
  intros Hn Hs max_block_size.
  split; [apply encrypt_key_too_small|].
  split; [apply max_block_size_small|].
  intros Hk message_bytes E blocks.
  pose proof (utf8_encode_bytes _ _ Hs E) as Hb.
  destruct (blocks_of_spec max_block_size message_bytes Hk) as [Hcat Hall].
  fold blocks in Hcat, Hall.
  split; [exact Hcat|]. split.
  - eapply Forall_impl; [|exact Hall].
    intros block [Hlen Hincl]. split; [exact Hlen|].
    apply block_below_modulus; [exact Hn | | lia].
    apply Forall_forall. intros x Hx.
    unfold is_bytes in Hb. rewrite Forall_forall in Hb. auto.
  - eexists. split.
    + rewrite encrypt_unfold by exact Hk. rewrite E. reflexivity.
    + fold max_block_size. fold blocks.
      assert (n <> 0) as Hnz by lia.
      clear - Hnz. induction blocks as [|b bs IH]; simpl; constructor; [|exact IH].
      apply modexpo_nonzero. exact Hnz.
Qed.

Lemma encrypt_blocks_witness :
  let max_block_size := (bit_length 3233 + 7) / 8 - 1 in
  (encrypt [72; 105; 233] (17, 3233) = Raise KeyTooSmallError
   <-> max_block_size <= 0)
  /\ (max_block_size <= 0 <-> bit_length 3233 <= 8)
  /\ (0 < max_block_size ->
      forall message_bytes, utf8_encode [72; 105; 233] = Ok message_bytes ->
      let blocks := blocks_of max_block_size message_bytes in
      List.concat blocks = message_bytes
      /\ Forall (fun block =>
                   (0 < List.length block <= Z.to_nat max_block_size)%nat
                   /\ 0 <= bytes_to_int block < 3233) blocks
      /\ exists encrypted_blocks,
           encrypt [72; 105; 233] (17, 3233) = Ok encrypted_blocks
           /\ Forall2 (fun block c => modexpo (bytes_to_int block) 17 3233 = Ok c)
                      blocks encrypted_blocks).
Proof.
  apply (encrypt_blocks 17 3233 [72; 105; 233]).
  - lia.
  - repeat constructor; lia.
Defined.

Example encrypt_small_key : encrypt [72; 105] (17, 221) = Raise KeyTooSmallError.
Proof. reflexivity. Qed.

Example encrypt_two_blocks :
  encrypt [72; 105; 233] (17, 3233) = Ok [3000; 3179; 205; 2209].
Proof. vm_compute. reflexivity. Qed.

(** ** Why decryption undoes encryption *)

Lemma pow_mod_prime (p m k : Z) :
  Z.prime p -> 0 <= k -> m ^ (1 + k * (p - 1)) mod p = m mod p.
Proof.
  intros Hp Hk. pose proof (Z.prime_ge_2 p Hp) as Hp2.
  destruct (Z.eq_dec (m mod p) 0) as [Hz|Hnz].
  - rewrite <- Z.mod_pow_l, Hz. rewrite Z.pow_0_l by nia. apply Z.mod_0_l. lia.
  - rewrite Z.pow_add_r, Z.pow_1_r by nia.
    rewrite (Z.mul_comm k), Z.pow_mul_r by lia.
    rewrite <- Z.mul_mod_idemp_r by lia.
    rewrite <- (Z.mod_pow_l (m ^ (p - 1))).
    rewrite (Z.fermat_nz p m Hp Hnz).
    rewrite Z.pow_1_l by lia. rewrite (Z.mod_1_l p) by lia.
    rewrite Z.mul_1_r. reflexivity.
Qed.

Lemma coprime_distinct_primes (p q : Z) :
  Z.prime p -> Z.prime q -> p <> q -> Z.gcd q p = 1.
Proof.
  intros Hp Hq Hne. apply Z.coprime_prime_l; [exact Hq|].
  intros D. apply Hne. symmetry. apply Z.divide_prime_prime; assumption.
Qed.

Lemma cong_mod_product (p q a b : Z) :
  Z.prime p -> Z.prime q -> p <> q ->
  a mod p = b mod p -> a mod q = b mod q -> a mod (p * q) = b mod (p * q).
Proof.
  intros Hp Hq Hne Ep Eq.
  pose proof (Z.prime_ge_2 p Hp). pose proof (Z.prime_ge_2 q Hq).
  apply Z.cong_iff_0 in Ep, Eq. apply Z.cong_iff_0.
  apply Z.mod_divide in Ep, Eq; try lia.
  apply Z.mod_divide; [nia|].
  destruct Ep as [k Ek]. rewrite Ek in Eq |- *.
  rewrite Z.mul_comm in Eq. apply Z.gauss in Eq.
  - destruct Eq as [j Ej]. exists j. rewrite Ej. ring.
  - apply coprime_distinct_primes; assumption.
Qed.

(** The RSA identity for a modulus of two distinct primes. *)
Lemma rsa_identity (p q e d m : Z) :
  Z.prime p -> Z.prime q -> p <> q ->
  0 <= e -> 0 <= d -> (e * d) mod ((p - 1) * (q - 1)) = 1 ->
  0 <= m < p * q ->
  (m ^ e mod (p * q)) ^ d mod (p * q) = m.
Proof.
  intros Hp Hq Hne He Hd Hed Hm.
  pose proof (Z.prime_ge_2 p Hp). pose proof (Z.prime_ge_2 q Hq).
  assert (2 <= (p - 1) * (q - 1)) as Hphi by nia.
  rewrite Z.mod_pow_l, <- Z.pow_mul_r by lia.
  pose proof (Z.div_mod (e * d) ((p - 1) * (q - 1)) ltac:(lia)) as DM.
  rewrite Hed in DM.
  assert (0 <= e * d / ((p - 1) * (q - 1))) as Hk by (apply Z.div_pos; nia).
  set (k := e * d / ((p - 1) * (q - 1))) in *.
  rewrite <- (Z.mod_small m (p * q)) at 2 by lia.
  apply cong_mod_product; try assumption.
  - replace (e * d) with (1 + (k * (q - 1)) * (p - 1)) by lia.
    apply pow_mod_prime; [assumption | nia].
  - replace (e * d) with (1 + (k * (p - 1)) * (q - 1)) by lia.
    apply pow_mod_prime; [assumption | nia].
Qed.

(** ** UTF-8: decoding undoes encoding *)

Ltac zdm := Z.div_mod_to_equations; lia.

Ltac step_test :=
  match goal with
  | |- context [if ?b then _ else _] =>
      first [ match b with context [Z.leb ?x ?y] => destruct (Z.leb_spec x y) end
            | match b with context [Z.ltb ?x ?y] => destruct (Z.ltb_spec x y) end
            | match b with context [Z.eqb ?x ?y] => destruct (Z.eqb_spec x y) end ];
      try lia; cbn [andb orb negb]
  end.

Lemma utf8_decode_encode_cp (c : Z) (rest : list Z) :
  0 <= c <= 1114111 ->
  match utf8_encode_cp c with
  | Ok b => utf8_decode_ignore (b ++ rest) = c :: utf8_decode_ignore rest
  | Raise _ => 55296 <= c <= 57343
  end.
Proof.
  intros Hc. unfold utf8_encode_cp.
  destruct (Z.ltb_spec c 128).
  { cbn [app utf8_decode_ignore]. repeat step_test. reflexivity. }
  destruct (Z.ltb_spec c 2048).
  { assert (c = 64 * (c / 64) + c mod 64 /\ 0 <= c mod 64 < 64) as [E1 R1] by zdm.
    revert E1 R1. generalize (c / 64) (c mod 64). intros q r E1 R1.
    cbn [app utf8_decode_ignore]. unfold is_cont. repeat step_test.
    f_equal. lia. }
  destruct ((55296 <=? c) && (c <=? 57343)) eqn:S.
  { apply andb_true_iff in S. lia. }
  assert (~ (55296 <= c <= 57343)) as NS.
  { apply andb_false_iff in S. lia. }
  clear S. destruct (Z.ltb_spec c 65536).
  - assert (c = 4096 * (c / 4096) + 64 * ((c / 64) mod 64) + c mod 64
            /\ 0 <= (c / 64) mod 64 < 64 /\ 0 <= c mod 64 < 64)
      as (E1 & R1 & R2) by zdm.
    revert E1 R1 R2.
    generalize (c / 4096) ((c / 64) mod 64) (c mod 64). intros a b d E1 R1 R2.
    cbn [app utf8_decode_ignore]. unfold is_cont.
    repeat step_test; f_equal; lia.
  - assert (c = 262144 * (c / 262144) + 4096 * ((c / 4096) mod 64)
                + 64 * ((c / 64) mod 64) + c mod 64
            /\ 0 <= (c / 4096) mod 64 < 64
            /\ 0 <= (c / 64) mod 64 < 64 /\ 0 <= c mod 64 < 64)
      as (E1 & R1 & R2 & R3) by zdm.
    revert E1 R1 R2 R3.
    generalize (c / 262144) ((c / 4096) mod 64) ((c / 64) mod 64) (c mod 64).
    intros a b d f E1 R1 R2 R3.
    cbn [app utf8_decode_ignore]. unfold is_cont.
    repeat step_test; f_equal; lia.
Qed.

Lemma utf8_decode_encode (s : list Z) : forall b,
  is_str s -> utf8_encode s = Ok b -> utf8_decode_ignore b = s.
Proof.
  induction s as [|c s IH]; intros b Hs E; simpl in E.
  - injection E as <-. reflexivity.
  - inversion Hs as [|? ? Hc Hs']; subst.
    pose proof (utf8_decode_encode_cp c) as D.
    destruct (utf8_encode_cp c) as [b0|]; [|discriminate].
    destruct (utf8_encode s) as [bs|]; [|discriminate].
    simpl in E. injection E as <-.
    rewrite (D bs Hc). f_equal. apply IH; [exact Hs' | reflexivity].
Qed.

Lemma utf8_encode_text (s : list Z) :
  is_text s -> is_str s /\ exists b, utf8_encode s = Ok b.
Proof.
  induction 1 as [|c s [Hc Hns] Hs [IHs [bs IH]]].
  - split; [constructor | exists []; reflexivity].
  - split; [constructor; assumption|].
    pose proof (utf8_decode_encode_cp c [] Hc) as D. simpl.
    destruct (utf8_encode_cp c) as [b0|]; [|contradiction].
    rewrite IH. simpl. eexists. reflexivity.
Qed.

Example utf8_encode_ex :
  utf8_encode [72; 233; 8364; 128512]
  = Ok [72; 195; 169; 226; 130; 172; 240; 159; 152; 128].
Proof. reflexivity. Qed.

Example utf8_decode_ignore_ex :
  utf8_decode_ignore [72; 255; 195; 169; 128; 226; 130; 65; 237; 160; 128]
  = [72; 233; 65].
Proof. reflexivity. Qed.

(** ** Key generation *)

Lemma modinv_inverse (e phi x : Z) :
  modinv e phi = Ok x -> phi <> 0 /\ (e * x) mod phi = 1 mod phi
                         /\ x = x mod phi.
Proof.
  unfold modinv. destruct (egcd e phi) as [[g x0] y] eqn:E.
  pose proof (egcd_bezout e phi _ _ _ E) as B.
  destruct (Z.eqb_spec g 1) as [->|]; simpl; [|discriminate].
  destruct (Z.eqb_spec phi 0); [discriminate|].
  intros [= <-]. split; [assumption|]. split.
  - rewrite Z.mul_mod_idemp_r by assumption.
    replace (e * x0) with (1 + (- y) * phi) by lia.
    apply Z.mod_add. assumption.
  - symmetry. apply Z.mod_mod. assumption.
Qed.

Lemma exponent_loop_result (fuel : nat) : forall e phi e',
  exponent_loop fuel e phi = Some (Ok e') ->
  gcd e' phi = 1 /\ (e' = e \/ e' = 3).
Proof.
  induction fuel as [|fuel IH]; intros e phi e' E; simpl in E; [discriminate|].
  destruct (Z.eqb_spec (gcd e phi) 1) as [G|G]; simpl in E.
  - injection E as <-. auto.
  - apply IH in E. tauto.
Qed.


Lemma keys_of_primes_result (fuel : nat) (p q e n d n' : Z) :
  keys_of_primes fuel p q = Some (Ok ((e, n), (d, n'))) ->
  n = p * q /\ n' = p * q
  /\ (e = DEFAULT_E \/ e = 3)
  /\ gcd e ((p - 1) * (q - 1)) = 1
  /\ modinv e ((p - 1) * (q - 1)) = Ok d.
Proof.
  unfold keys_of_primes. rewrite !karatsuba_multiply_mul.
  destruct (exponent_loop fuel DEFAULT_E ((p - 1) * (q - 1)))
    as [[e0|x]|] eqn:E; simpl; try discriminate.
  destruct (modinv e0 ((p - 1) * (q - 1))) as [d0|x] eqn:D; simpl;
    try discriminate.
  intros [= <- <- <- <-].
  apply exponent_loop_result in E. tauto.
Qed.

(** The second search never takes [q = p]. *)
Lemma find_q_distinct (fuel : nat) : forall p generator g q generator' g',
  find_q fuel p generator g = Some (Ok (q, generator', g')) -> p <> q.
Proof.
  induction fuel as [|fuel IH]; intros p generator g q generator' g' E;
    cbn [find_q] in E; [discriminate|].
  destruct (next generator) as [q0 generator0].
  destruct (Z.eqb_spec p q0) as [Heq|Hne]; cbn [negb] in E.
  - eapply IH; eauto.
  - destruct (is_prime (S fuel) q0 20 g) as [[[b g0]|x]|]; cbn [sbind] in E;
      try discriminate.
    destruct b.
    + injection E as <- <- <-. exact Hne.
    + eapply IH; eauto.
Qed.

Lemma generate_prime_pair_distinct (fuel : nat) (bits seed : Z) (g g' : rng)
    (p q : Z) :
  generate_prime_pair fuel bits seed g = Some (Ok (p, q, g')) -> p <> q.
Proof.
  unfold generate_prime_pair.
  destruct (find_p fuel (lcg_prng seed bits) g) as [[[[p0 gen0] g0]|x]|];
    simpl; try discriminate.
  destruct (find_q fuel p0 gen0 g0) as [[[[q0 gen1] g1]|x]|] eqn:Q;
    simpl; try discriminate.
  intros [= <- <- <-]. eapply find_q_distinct; eauto.
Qed.

(** ** Decryption *)

Lemma decrypt_loop_blocks (d n : Z) (blocks : list (list Z)) :
  forall cipher_blocks decrypted_bytes,
    Forall2 (fun block c =>
               modexpo c d n = Ok (bytes_to_int block)
               /\ int_to_bytes (bytes_to_int block) = block)
            blocks cipher_blocks ->
    decrypt_loop d n cipher_blocks decrypted_bytes
    = Ok (decrypted_bytes ++ List.concat blocks).
Proof.
  induction blocks as [|block blocks IH]; intros cipher_blocks acc F;
    inversion F as [|? c ? cs [M B] F']; subst; simpl.
  - rewrite List.app_nil_r. reflexivity.
  - rewrite M. simpl. rewrite B, (IH _ _ F'), <- List.app_assoc. reflexivity.
Qed.

(** ** The round trip *)

Lemma modexpo_loop_pow (x y d : Z) :
  0 <= y -> 1 < d -> modexpo_loop 1 (x mod d) y d = x ^ y mod d.
Proof.
  intros Hy Hd. rewrite modexpo_loop_spec by lia.
  rewrite Z.mul_1_l. apply Z.mod_pow_l.
Qed.

Lemma Forall2_map_r {A B : Type} (R : A -> B -> Prop) (f : A -> B) (l : list A) :
  Forall (fun x => R x (f x)) l -> Forall2 R l (map f l).
Proof. induction 1; simpl; constructor; assumption. Qed.

Lemma int_to_bytes_block (block : list Z) :
  is_bytes block -> block <> [] -> ~ In 0 block ->
  int_to_bytes (bytes_to_int block) = block.
Proof.
  intros Hb Hne Hnz.
  assert (last block 0 <> 0) as Hlast.
  { intros E. apply Hnz. rewrite <- E. apply last_In. exact Hne. }
  unfold int_to_bytes.
  pose proof (bytes_to_int_pos block Hb Hne Hlast) as Hp.
  destruct (Z.eqb_spec (bytes_to_int block) 0); [lia|].
  apply digits_bytes_to_int; [exact Hb | right; exact Hlast].
Qed.

(** Encryption then decryption under an RSA key of two distinct primes whose
    modulus has more than eight bits. *)
Lemma decrypt_encrypt (p q e d : Z) (message message_bytes : list Z) :
  Z.prime p -> Z.prime q -> p <> q ->
  0 <= e -> 0 <= d -> (e * d) mod ((p - 1) * (q - 1)) = 1 ->
  8 < bit_length (p * q) ->
  is_str message -> utf8_encode message = Ok message_bytes ->
  ~ In 0 message_bytes ->
  (cipher_blocks <- encrypt message (e, p * q) ;;
   decrypt cipher_blocks (d, p * q)) = Ok message.
Proof.
  intros Hp Hq Hne He Hd Hed Hbits Hs Henc Hnul.
  pose proof (Z.prime_ge_2 p Hp). pose proof (Z.prime_ge_2 q Hq).
  set (n := p * q) in *.
  assert (1 < n) as Hn by (subst n; nia).
  assert (0 < (bit_length n + 7) / 8 - 1) as Hk by (Z.div_mod_to_equations; lia).
  rewrite encrypt_unfold by exact Hk. rewrite Henc. cbn [bind].
  unfold decrypt.
  pose proof (utf8_encode_bytes _ _ Hs Henc) as Hb.
  destruct (blocks_of_spec _ message_bytes Hk) as [Hcat Hall].
  rewrite (decrypt_loop_blocks d n (blocks_of ((bit_length n + 7) / 8 - 1) message_bytes)).
  - cbn [bind app]. rewrite Hcat.
    rewrite (utf8_decode_encode _ _ Hs Henc). reflexivity.
  - apply Forall2_map_r. eapply Forall_impl; [|exact Hall].
    intros block [Hlen Hincl]. cbv beta.
    assert (is_bytes block) as Hbb.
    { apply Forall_forall. intros x Hx.
      unfold is_bytes in Hb. rewrite Forall_forall in Hb. auto. }
    pose proof (block_below_modulus n block ltac:(lia) Hbb ltac:(lia)) as Hm.
    split.
    + rewrite modexpo_loop_pow by lia. rewrite modexpo_spec by lia.
      f_equal. subst n. apply rsa_identity; assumption.
    + apply int_to_bytes_block; [exact Hbb | | ].
      * intros ->. simpl in Hlen. lia.
      * intros Hz. apply Hnul. apply Hincl. exact Hz.
Qed.

(** C1, as the code has it.  For every key pair [((e, n), (d, n))] that
    [generate_keys] returns from a pair of primes (the pair
    [generate_prime_pair] finds) whose modulus [n] has more than eight bits,
    and every message whose UTF-8 encoding has no zero byte,
    [decrypt (encrypt message (e, n)) (d, n)] is the message, whether the
    encoding fits one block or spans several. *)
Theorem decrypt_encrypt_generated (fuel : nat) (bits seed : Z) (g g' : rng)
    (p q : Z) (public_key private_key : Z * Z)
    (message message_bytes : list Z) :
  generate_prime_pair fuel (bits / 2) seed g = Some (Ok (p, q, g')) ->
  Z.prime p -> Z.prime q ->
  generate_keys fuel bits seed g = Some (Ok (public_key, private_key)) ->
  8 < bit_length (snd public_key) ->
  is_str message -> utf8_encode message = Ok message_bytes ->
  ~ In 0 message_bytes ->
  (cipher_blocks <- encrypt message public_key ;;
   decrypt cipher_blocks private_key) = Ok message.
Proof.
  intros Hpair Hp Hq Hkeys Hbits Hs Henc Hnul.
  pose proof (generate_prime_pair_distinct _ _ _ _ _ _ _ Hpair) as Hne.
  unfold generate_keys in Hkeys. rewrite Hpair in Hkeys. cbn [sbind] in Hkeys.
  destruct public_key as [e n]. destruct private_key as [d n'].
  apply keys_of_primes_result in Hkeys.
  destruct Hkeys as (-> & -> & He & Hg & Hinv).
  apply modinv_inverse in Hinv. destruct Hinv as (Hphi & Hed & Hd).
  pose proof (Z.prime_ge_2 p Hp). pose proof (Z.prime_ge_2 q Hq).
  assert (2 <= (p - 1) * (q - 1)) as Hphi2 by nia.
  rewrite (Z.mod_1_l ((p - 1) * (q - 1))) in Hed by lia.
  pose proof (Z.mod_pos_bound d ((p - 1) * (q - 1)) ltac:(lia)).
  eapply decrypt_encrypt; eauto; try lia.
  unfold DEFAULT_E in He. lia.
Qed.

(** ** Primality of concrete numbers, by trial division *)

Lemma trial_division_spec (p : Z) (k : nat) :
  trial_division p k = true ->
  forall n, 2 <= n < Z.of_nat k + 2 -> ~ (n | p).
Proof.
  induction k as [|k IH]; intros T n Hn; [lia|].
  cbn [trial_division] in T. apply andb_true_iff in T. destruct T as [T1 T2].
  destruct (Z.eq_dec n (Z.of_nat k + 2)) as [->|Hne].
  - apply negb_true_iff, Z.eqb_neq in T1.
    intros D. apply T1. apply Z.mod_divide; [lia | exact D].
  - apply IH; [exact T2 | lia].
Qed.

Lemma prime_check_sound (p : Z) : prime_check p = true -> Z.prime p.
Proof.
  unfold prime_check. intros C. apply andb_true_iff in C. destruct C as [C1 C2].
  apply Z.ltb_lt in C1.
  pose proof (trial_division_spec p _ C2) as T.
  assert (forall n, 2 <= n -> n * n <= p -> ~ (n | p)) as S.
  { intros n Hn Hsq. apply T.
    apply Z.sqrt_le_square in Hsq; lia. }
  split; [exact C1|]. intros n Hn [m Hm].
  assert (1 < m < p) by nia.
  destruct (Z_le_gt_dec (n * n) p) as [Hle|Hgt].
  - apply (S n); [lia | exact Hle | exists m; exact Hm].
  - apply (S m); [lia | nia | exists n; lia].
Qed.

(** ** Runs of key generation *)

Example generate_keys_32 :
  generate_keys 64 32 30 rng0 = Some (Ok ((65537, 1974017), (458753, 1974017))).
Proof. vm_compute. reflexivity. Qed.

Lemma decrypt_encrypt_generated_witness :
  (cipher_blocks <- encrypt [72; 105] (65537, 1974017) ;;
   decrypt cipher_blocks (458753, 1974017)) = Ok [72; 105]
  /\ (cipher_blocks <- encrypt [82; 83; 65; 32; 233; 8364; 33] (65537, 1974017) ;;
      decrypt cipher_blocks (458753, 1974017))
     = Ok [82; 83; 65; 32; 233; 8364; 33].
Proof.
  split.
  - eapply (decrypt_encrypt_generated 64 32 30 rng0 _ 7681 257
              (65537, 1974017) (458753, 1974017) [72; 105] [72; 105]).
    + vm_compute. reflexivity.
    + apply prime_check_sound. vm_compute. reflexivity.
    + apply prime_check_sound. vm_compute. reflexivity.
    + vm_compute. reflexivity.
    + vm_compute. reflexivity.
    + repeat constructor; lia.
    + reflexivity.
    + simpl. intuition lia.
  - eapply (decrypt_encrypt_generated 64 32 30 rng0 _ 7681 257
              (65537, 1974017) (458753, 1974017)
              [82; 83; 65; 32; 233; 8364; 33]
              [82; 83; 65; 32; 195; 169; 226; 130; 172; 33]).
    + vm_compute. reflexivity.
    + apply prime_check_sound. vm_compute. reflexivity.
    + apply prime_check_sound. vm_compute. reflexivity.
    + vm_compute. reflexivity.
    + vm_compute. reflexivity.
    + repeat constructor; lia.
    + reflexivity.
    + simpl. intuition lia.
Defined.

(** C1 as stated fails: [generate_keys 6] (time seed 1) returns the key pair
    of the primes 3 and 7, whose modulus 21 is too small for [encrypt], so no
    message makes the round trip. *)
Lemma decrypt_encrypt_small_modulus :
  generate_keys 64 6 1 rng0 = Some (Ok ((65537, 21), (5, 21)))
  /\ utf8_encode [72; 105] = Ok [72; 105]
  /\ ~ In 0 [72; 105]
  /\ encrypt [72; 105] (65537, 21) = Raise KeyTooSmallError
  /\ (cipher_blocks <- encrypt [72; 105] (65537, 21) ;;
      decrypt cipher_blocks (5, 21)) <> Ok [72; 105].
Proof.
  split; [vm_compute; reflexivity|].
  split; [reflexivity|].
  split; [simpl; intuition lia|].
  split; [reflexivity|].
  vm_compute. discriminate.
Qed.

(** The primes are needed as well: with all-zero entropy every Miller-Rabin
    round uses the witness 2, which [2^32 + 1 = 641 * 6700417] passes; with
    the time seed 1712875038, [generate_keys 128] returns a key pair built on
    it, with a modulus of 95 bits, under which a message does not come
    back. *)
Lemma decrypt_encrypt_pseudoprime :
  generate_keys 64 128 1712875038 rng0
  = Some (Ok ((65537, 31596967463588265299858685953),
              (26330725859508802638193819649, 31596967463588265299858685953)))
  /\ 31596967463588265299858685953 = 7356742270344757249 * (641 * 6700417)
  /\ 8 < bit_length 31596967463588265299858685953
  /\ (cipher_blocks <- encrypt [72; 105] (65537, 31596967463588265299858685953) ;;
      decrypt cipher_blocks
        (26330725859508802638193819649, 31596967463588265299858685953))
     <> Ok [72; 105].
Proof.
  split; [vm_compute; reflexivity|].
  split; [reflexivity|].
  split; [vm_compute; reflexivity|].
  vm_compute. discriminate.
Qed.

(** ** The exponent loop of [generate_keys] *)

Lemma exponent_loop_default (fuel : nat) (phi : Z) :
  gcd DEFAULT_E phi = 1 ->
  exponent_loop (S fuel) DEFAULT_E phi = Some (Ok DEFAULT_E).
Proof. intros G. cbn [exponent_loop]. rewrite G. reflexivity. Qed.

Lemma exponent_loop_fallback (fuel : nat) (phi : Z) :
  gcd DEFAULT_E phi <> 1 -> gcd 3 phi = 1 ->
  exponent_loop (S (S fuel)) DEFAULT_E phi = Some (Ok 3).
Proof.
  intros G G3. cbn [exponent_loop].
  destruct (Z.eqb_spec (gcd DEFAULT_E phi) 1); [contradiction|].
  cbn [negb]. rewrite G3. reflexivity.
Qed.

Lemma exponent_loop_stuck (phi : Z) :
  gcd 3 phi <> 1 -> forall fuel, exponent_loop fuel 3 phi = None.
Proof.
  intros G3. induction fuel as [|fuel IH]; [reflexivity|].
  cbn [exponent_loop].
  destruct (Z.eqb_spec (gcd 3 phi) 1); [contradiction|]. exact IH.
Qed.

Lemma exponent_loop_diverges (phi : Z) :
  gcd DEFAULT_E phi <> 1 -> gcd 3 phi <> 1 ->
  forall fuel, exponent_loop fuel DEFAULT_E phi = None.
Proof.
  intros G G3 [|fuel]; [reflexivity|].
  cbn [exponent_loop].
  destruct (Z.eqb_spec (gcd DEFAULT_E phi) 1); [contradiction|].
  apply exponent_loop_stuck. exact G3.
Qed.

(** With a prime pair for which 65537 or 3 is coprime to [phi], and enough
    fuel for two turns of the loop, [generate_keys] returns a key pair. *)
Lemma keys_of_primes_returns (fuel : nat) (p q : Z) :
  Z.prime p -> Z.prime q -> p <> q ->
  gcd DEFAULT_E ((p - 1) * (q - 1)) = 1 \/ gcd 3 ((p - 1) * (q - 1)) = 1 ->
  exists e d,
    keys_of_primes (S (S fuel)) p q = Some (Ok ((e, p * q), (d, p * q)))
    /\ (e = DEFAULT_E \/ e = 3)
    /\ (e * d) mod ((p - 1) * (q - 1)) = 1.
Proof.
  intros Hp Hq Hne Hg.
  pose proof (Z.prime_ge_2 p Hp). pose proof (Z.prime_ge_2 q Hq).
  set (phi := (p - 1) * (q - 1)) in *.
  assert (2 <= phi) as Hphi by (subst phi; nia).
  assert (exists e, exponent_loop (S (S fuel)) DEFAULT_E phi = Some (Ok e)
                    /\ (e = DEFAULT_E \/ e = 3) /\ gcd e phi = 1)
    as (e & Hloop & He & Hge).
  { destruct (Z.eq_dec (gcd DEFAULT_E phi) 1) as [G|G].
    - exists DEFAULT_E. rewrite exponent_loop_default by exact G. auto.
    - destruct Hg as [Hg|Hg]; [contradiction|].
      exists 3. rewrite exponent_loop_fallback by assumption. auto. }
  assert (0 <= e) as He0 by (unfold DEFAULT_E in He; lia).
  assert (exists d, modinv e phi = Ok d) as [d Hd].
  { unfold modinv. unfold gcd in Hge.
    destruct (egcd e phi) as [[g0 x] y]. subst g0. simpl.
    destruct (Z.eqb_spec phi 0); [lia|]. eexists. reflexivity. }
  exists e, d. split; [|split; [exact He|]].
  - unfold keys_of_primes. rewrite !karatsuba_multiply_mul. fold phi.
    rewrite Hloop. cbn [sbind]. rewrite Hd. reflexivity.
  - apply modinv_inverse in Hd. destruct Hd as (_ & Hed & _).
    rewrite Hed. apply Z.mod_1_l. lia.
Qed.

(** ** More fuel never changes an answer *)

Lemma sbind_mono {A B : Type} (r r' : search A) (k k' : A -> search B)
    (v : outcome B) :
  (forall w, r = Some w -> r' = Some w) ->
  (forall a w, k a = Some w -> k' a = Some w) ->
  sbind r k = Some v -> sbind r' k' = Some v.
Proof.
  intros Hr Hk. destruct r as [[a|x]|]; simpl; try discriminate.
  - rewrite (Hr _ eq_refl). simpl. apply Hk.
  - rewrite (Hr _ eq_refl). simpl. auto.
Qed.

Lemma mr_loop_mono (f : nat) : forall f' x d n v,
  (f <= f')%nat -> mr_loop f x d n = Some v -> mr_loop f' x d n = Some v.
Proof.
  induction f as [|f IH]; intros f' x d n v Hle E; [discriminate|].
  destruct f' as [|f']; [lia|]. cbn [mr_loop] in E |- *.
  destruct (negb (d =? n - 1)); [|exact E].
  destruct (x * x mod n =? 1); [exact E|].
  destruct (x * x mod n =? n - 1); [exact E|].
  apply IH; [lia | exact E].
Qed.

Lemma miller_rabin_test_mono (f f' : nat) (d n : Z) (g : rng) v :
  (f <= f')%nat ->
  _miller_rabin_test f d n g = Some v -> _miller_rabin_test f' d n g = Some v.
Proof.
  intros Hle. unfold _miller_rabin_test.
  apply sbind_mono; [auto|]. intros [r g0] w.
  apply sbind_mono; [auto|]. intros x w0.
  destruct ((x =? 1) || (x =? n - 1)); [auto|].
  apply sbind_mono; [|auto]. intros w1. apply mr_loop_mono. exact Hle.
Qed.

Lemma halve_loop_mono (f : nat) : forall f' d v,
  (f <= f')%nat -> halve_loop f d = Some v -> halve_loop f' d = Some v.
Proof.
  induction f as [|f IH]; intros f' d v Hle E; [discriminate|].
  destruct f' as [|f']; [lia|]. cbn [halve_loop] in E |- *.
  destruct (d mod 2 =? 0); [|exact E]. apply IH; [lia | exact E].
Qed.

Lemma witness_loop_mono (f f' : nat) (k : nat) : forall d n g v,
  (f <= f')%nat ->
  witness_loop f k d n g = Some v -> witness_loop f' k d n g = Some v.
Proof.
  induction k as [|k IH]; intros d n g v Hle; cbn [witness_loop]; [auto|].
  apply sbind_mono.
  - intros w. apply miller_rabin_test_mono. exact Hle.
  - intros [b g0] w. destruct (negb b); [auto|]. apply IH. exact Hle.
Qed.

Lemma is_prime_mono (f f' : nat) (n k : Z) (g : rng) v :
  (f <= f')%nat -> is_prime f n k g = Some v -> is_prime f' n k g = Some v.
Proof.
  intros Hle. unfold is_prime.
  destruct ((n <=? 1) || (n =? 4)); [auto|].
  destruct (n <=? 3); [auto|].
  destruct (n mod 2 =? 0); [auto|].
  apply sbind_mono.
  - intros w. apply halve_loop_mono. exact Hle.
  - intros d w. apply witness_loop_mono. exact Hle.
Qed.

Lemma find_p_mono (f : nat) : forall f' generator g v,
  (f <= f')%nat ->
  find_p f generator g = Some v -> find_p f' generator g = Some v.
Proof.
  induction f as [|f IH]; intros f' generator g v Hle E; [discriminate|].
  destruct f' as [|f']; [lia|]. cbn [find_p] in E |- *.
  destruct (next generator) as [p generator0].
  revert E. apply sbind_mono.
  - intros w. apply is_prime_mono. lia.
  - intros [b g0] w. destruct b; [auto|]. apply IH. lia.
Qed.

Lemma find_q_mono (f : nat) : forall f' p generator g v,
  (f <= f')%nat ->
  find_q f p generator g = Some v -> find_q f' p generator g = Some v.
Proof.
  induction f as [|f IH]; intros f' p generator g v Hle E; [discriminate|].
  destruct f' as [|f']; [lia|]. cbn [find_q] in E |- *.
  destruct (next generator) as [q generator0].
  destruct (negb (p =? q)); [|apply IH; [lia | exact E]].
  revert E. apply sbind_mono.
  - intros w. apply is_prime_mono. lia.
  - intros [b g0] w. destruct b; [auto|]. apply IH. lia.
Qed.

Lemma generate_prime_pair_mono (f f' : nat) (bits seed : Z) (g : rng) v :
  (f <= f')%nat ->
  generate_prime_pair f bits seed g = Some v ->
  generate_prime_pair f' bits seed g = Some v.
Proof.
  intros Hle. unfold generate_prime_pair.
  apply sbind_mono.
  - intros w. apply find_p_mono. exact Hle.
  - intros [[p generator] g0] w. apply sbind_mono; [|auto].
    intros w0. apply find_q_mono. exact Hle.
Qed.

Lemma generate_prime_pair_deterministic (f f' : nat) (bits seed : Z) (g : rng)
    v v' :
  generate_prime_pair f bits seed g = Some v ->
  generate_prime_pair f' bits seed g = Some v' -> v = v'.
Proof.
  intros E E'.
  apply (generate_prime_pair_mono f (Nat.max f f')) in E; [|lia].
  apply (generate_prime_pair_mono f' (Nat.max f f')) in E'; [|lia].
  congruence.
Qed.

(** ** Where [generate_keys] does not return *)

(** For [bits = 2] the candidates alternate between 0 and 1, so the prime
    search itself never ends, whatever the seed and the entropy. *)
Lemma find_p_one_bit (fuel : nat) : forall generator g,
  lcg_m generator = 2 -> lcg_a generator = 1 -> lcg_c generator = 1 ->
  find_p fuel generator g = None.
Proof.
  induction fuel as [|fuel IH]; intros generator g Hm Ha Hc; [reflexivity|].
  cbn [find_p]. unfold next. rewrite Hm, Ha, Hc.
  set (s := (1 * current_seed generator + 1) mod 2).
  assert (s = 0 \/ s = 1) as [-> | ->]
    by (subst s; pose proof (Z.mod_pos_bound (1 * current_seed generator + 1) 2); lia).
  - cbn. apply IH; reflexivity.
  - cbn. apply IH; reflexivity.
Qed.

Lemma generate_keys_2_diverges (fuel : nat) (seed : Z) (g : rng) :
  generate_keys fuel 2 seed g = None.
Proof.
  unfold generate_keys, generate_prime_pair.
  rewrite find_p_one_bit; reflexivity.
Qed.

(** C2: the code does not do what the claim says.  For the primes
    [917519 = 14 * 65537 + 1] and [7], neither 65537 nor 3 is coprime to
    [phi = 917518 * 6]; the loop [while gcd(e, phi) != 1: e = 3] then never
    exits, so [generate_keys] neither returns a key pair nor raises, whatever
    the fuel.  End to end: [generate_keys(128)] with the time seed 1712875032
    and all-zero entropy finds the pair [(7356742244574953473, 2^32 + 1)]
    (the second passes Miller-Rabin for the witness 2) and then loops in the
    same way. *)
Theorem generate_keys_exponent_loop_diverges :
  Z.prime 917519 /\ Z.prime 7
  /\ gcd DEFAULT_E ((917519 - 1) * (7 - 1)) <> 1
  /\ gcd 3 ((917519 - 1) * (7 - 1)) <> 1
  /\ (forall fuel, keys_of_primes fuel 917519 7 = None)
  /\ (exists g',
        generate_prime_pair 64 (128 / 2) 1712875032 rng0
        = Some (Ok (7356742244574953473, 4294967297, g')))
  /\ (forall fuel, generate_keys fuel 128 1712875032 rng0 = None).
Proof.
  assert (gcd DEFAULT_E ((917519 - 1) * (7 - 1)) <> 1) as G
    by (vm_compute; discriminate).
  assert (gcd 3 ((917519 - 1) * (7 - 1)) <> 1) as G3
    by (vm_compute; discriminate).
  split; [apply prime_check_sound; vm_compute; reflexivity|].
  split; [apply prime_check_sound; vm_compute; reflexivity|].
  split; [exact G|]. split; [exact G3|].
  split.
  { intros fuel. unfold keys_of_primes. rewrite !karatsuba_multiply_mul.
    rewrite exponent_loop_diverges by assumption. reflexivity. }
  assert (generate_prime_pair 64 (128 / 2) 1712875032 rng0
          = Some (Ok (7356742244574953473, 4294967297,
                      {| draws := fun _ => 0; cursor := 40 |}))) as P
    by (vm_compute; reflexivity).
  split; [eexists; exact P|].
  intros fuel. unfold generate_keys.
  destruct (generate_prime_pair fuel (128 / 2) 1712875032 rng0) as [v|] eqn:E;
    [|reflexivity].
  rewrite (generate_prime_pair_deterministic _ _ _ _ _ _ _ E P).
  cbn [sbind]. unfold keys_of_primes. rewrite !karatsuba_multiply_mul.
  rewrite exponent_loop_diverges; [reflexivity | |]; vm_compute; discriminate.
Qed.

(** * Further properties of the code *)

(** ** [power] *)


Lemma range_length (start stop step : Z) :
  List.length (range start stop step)
  = Z.to_nat ((stop - start + step - 1) / step).
Proof. unfold range. rewrite length_map, length_seq. reflexivity. Qed.


(** ** [modexpo] on every input *)

Lemma modexpo_loop_general (result x y d : Z) :
  d <> 0 ->
  modexpo_loop result x y d
  = if y <=? 0 then result else (result * x ^ y) mod d.
Proof.
  funelim (modexpo_loop result x y d); intros Hd.
  - destruct (Z.leb_spec y 0); [lia|].
    assert (Z.shiftr y 1 = y / 2) as S2
      by (rewrite Z.shiftr_div_pow2 by lia; reflexivity).
    assert (Z.land y 1 = y mod 2) as L2
      by (change 1 with (Z.ones 1); rewrite Z.land_ones by lia; reflexivity).
    rewrite H by exact Hd. rewrite S2, L2.
    pose proof (Z.div_mod y 2 ltac:(lia)) as DM.
    pose proof (Z.mod_pos_bound y 2 ltac:(lia)) as MB.
    assert (0 <= y / 2) by (apply Z.div_pos; lia).
    destruct (Z.leb_spec (y / 2) 0) as [Hy2|Hy2].
    + assert (y = 1) as -> by lia. change (1 mod 2 =? 0) with false.
      cbv iota. rewrite Z.pow_1_r. reflexivity.
    + rewrite <- Z.mul_mod_idemp_r, Z.mod_pow_l, Z.mul_mod_idemp_r by exact Hd.
      rewrite <- Z.pow_2_r, <- Z.pow_mul_r by lia.
      destruct (Z.eqb_spec (y mod 2) 0) as [E0|E0].
      * f_equal. f_equal. f_equal. lia.
      * rewrite Z.mul_mod_idemp_l by exact Hd.
        assert (x ^ y = x * x ^ (2 * (y / 2))) as ->.
        { rewrite <- Z.pow_succ_r by lia. f_equal. lia. }
        f_equal. ring.
  - destruct (Z.leb_spec y 0); [reflexivity | lia].
Qed.

Lemma modexpo_outcome (x y d : Z) :
  modexpo x y d
  = if d =? 0 then Raise ZeroDivisionError
    else Ok (if y <=? 0 then 1 else x ^ y mod d).
Proof.
  unfold modexpo. destruct (Z.eqb_spec d 0) as [|Hd]; [reflexivity|].
  rewrite modexpo_loop_general by exact Hd.
  destruct (y <=? 0); [reflexivity|].
  rewrite Z.mul_1_l, Z.mod_pow_l. reflexivity.
Qed.

(** X2. What [modexpo] returns on every input: a zero modulus raises
    [ZeroDivisionError]; an exponent [y <= 0] gives 1 whatever the modulus
    (also for modulus 1, where [x ^ 0 mod 1] would be 0); otherwise the
    result is [x ^ y mod d], with the sign of [d]. *)
Theorem modexpo_total (x y d : Z) :
  modexpo x y d
  = if d =? 0 then Raise ZeroDivisionError
    else Ok (if y <=? 0 then 1 else x ^ y mod d).
Proof. apply modexpo_outcome. Qed.

(** ** [egcd], [gcd] and [modinv] on negative numbers *)

Lemma egcd_abs (a b : Z) :
  forall g x y, egcd a b = (g, x, y) -> Z.abs g = Z.gcd a b.
Proof.
  funelim (egcd a b); intros g x y E.
  - inversion E; subst. symmetry. apply Z.gcd_0_l.
  - inversion E; subst. clear E.
    rewrite (Hind _ _ _ Heq). apply Z.gcd_mod. assumption.
Qed.

Lemma egcd_sign (a b : Z) :
  forall g x y, egcd a b = (g, x, y) ->
  (0 < a -> 0 < g) /\ (a < 0 -> g < 0) /\ (a = 0 -> g = b).
Proof.
  funelim (egcd a b); intros g x y E.
  - inversion E; subst. repeat split; lia.
  - inversion E; subst. clear E.
    destruct (Hind _ _ _ Heq) as (Hpos & Hneg & Hz).
    pose proof (Z.mod_pos_bound b a). pose proof (Z.mod_neg_bound b a).
    repeat split; intros Ha; lia.
Qed.

(** X3. On all integers, negative ones included, [egcd a b] terminates with
    [(g, x, y)] such that [a * x + b * y = g] and [|g| = gcd(a, b)]; [g] has
    the sign of [a] (and is [b] when [a = 0]), so it is the negated gcd for a
    negative [a]. *)
Theorem egcd_integers (a b : Z) :
  exists g x y,
    egcd a b = (g, x, y) /\ a * x + b * y = g /\ Z.abs g = Z.gcd a b
    /\ g = if a =? 0 then b else Z.sgn a * Z.gcd a b.
Proof.
  destruct (egcd a b) as [[g x] y] eqn:E. exists g, x, y.
  pose proof (egcd_abs _ _ _ _ _ E) as A.
  destruct (egcd_sign _ _ _ _ _ E) as (Hpos & Hneg & Hz).
  split; [reflexivity|]. split; [eapply egcd_bezout; eauto|].
  split; [exact A|].
  destruct (Z.eqb_spec a 0) as [Ha|Ha]; [auto|].
  destruct (Z_lt_ge_dec 0 a) as [Hp|Hn].
  - specialize (Hpos Hp). rewrite Z.sgn_pos by lia. lia.
  - assert (a < 0) as Hlt by lia. specialize (Hneg Hlt).
    rewrite Z.sgn_neg by lia. lia.
Qed.

(** X4. [modinv e phi] raises the no-inverse error for every negative [e],
    also when [e] has an inverse modulo [phi]. *)
Theorem modinv_negative (e phi : Z) :
  e < 0 -> modinv e phi = Raise NoInverseError.
Proof.
  intros He. unfold modinv.
  destruct (egcd e phi) as [[g x] y] eqn:E.
  destruct (egcd_sign _ _ _ _ _ E) as (_ & Hneg & _).
  specialize (Hneg He).
  destruct (Z.eqb_spec g 1); [lia | reflexivity].
Qed.

Lemma modinv_negative_witness :
  modinv (-3) 7 = Raise NoInverseError /\ ((-3) * 2) mod 7 = 1.
Proof. split; [apply (modinv_negative (-3) 7); lia | reflexivity]. Defined.

(** X5. For a positive [e] and any non-zero modulus [phi], of either sign:
    [modinv e phi] raises the no-inverse error exactly when
    [gcd(e, phi) <> 1], and otherwise returns [x] with
    [(e * x) mod phi = 1 mod phi], reduced modulo [phi]. *)
Theorem modinv_positive (e phi : Z) :
  0 < e -> phi <> 0 ->
  (modinv e phi = Raise NoInverseError <-> Z.gcd e phi <> 1)
  /\ (Z.gcd e phi = 1 ->
      exists x, modinv e phi = Ok x /\ x = x mod phi
                /\ (e * x) mod phi = 1 mod phi).
Proof.
  intros He Hphi.
  assert (forall g x y, egcd e phi = (g, x, y) -> g = Z.gcd e phi) as G.
  { intros g x y E. pose proof (egcd_abs _ _ _ _ _ E).
    destruct (egcd_sign _ _ _ _ _ E) as (Hpos & _). specialize (Hpos He). lia. }
  split.
  - unfold modinv. destruct (egcd e phi) as [[g x] y] eqn:E.
    rewrite <- (G _ _ _ eq_refl).
    destruct (Z.eqb_spec g 1); simpl.
    + destruct (Z.eqb_spec phi 0); [contradiction|]. split; [discriminate|lia].
    + split; [intros _; assumption | reflexivity].
  - intros C. destruct (modinv e phi) as [x|err] eqn:M.
    + exists x. apply modinv_inverse in M. tauto.
    + exfalso. unfold modinv in M. destruct (egcd e phi) as [[g x] y] eqn:E.
      rewrite (G _ _ _ eq_refl), C in M. simpl in M.
      destruct (Z.eqb_spec phi 0); [contradiction | discriminate].
Qed.

Lemma modinv_positive_witness :
  (modinv 3 (-7) = Raise NoInverseError <-> Z.gcd 3 (-7) <> 1)
  /\ (Z.gcd 3 (-7) = 1 ->
      exists x, modinv 3 (-7) = Ok x /\ x = x mod (-7)
                /\ (3 * x) mod (-7) = 1 mod (-7)).
Proof. apply (modinv_positive 3 (-7)); lia. Defined.


(** ** The candidate generator *)

Lemma advance_consts (k : nat) (generator : lcg) :
  lcg_m (advance k generator) = lcg_m generator
  /\ lcg_a (advance k generator) = lcg_a generator
  /\ lcg_c (advance k generator) = lcg_c generator.
Proof.
  induction k as [|k IH]; [auto|]. cbn [advance]. unfold next. simpl. exact IH.
Qed.

Lemma draw_succ (k : nat) (generator : lcg) :
  draw (S k) generator
  = (lcg_a generator * draw k generator + lcg_c generator) mod lcg_m generator.
Proof.
  unfold draw. cbn [advance]. unfold next. cbn [snd current_seed].
  destruct (advance_consts k generator) as (-> & -> & ->). reflexivity.
Qed.

Lemma advance_add (i j : nat) (generator : lcg) :
  advance j (advance i generator) = advance (i + j) generator.
Proof.
  induction j as [|j IH].
  - rewrite Nat.add_0_r. reflexivity.
  - rewrite Nat.add_succ_r. cbn [advance]. rewrite IH. reflexivity.
Qed.

Lemma draw_range (seed bits : Z) (k : nat) :
  0 <= bits -> (1 <= k)%nat ->
  0 <= draw k (lcg_prng seed bits) < 2 ^ bits.
Proof.
  intros Hb Hk. destruct k as [|k]; [lia|].
  rewrite draw_succ. cbn [lcg_prng lcg_m lcg_a lcg_c].
  apply Z.mod_pos_bound. apply Z.pow_pos_nonneg; lia.
Qed.

(** X7. Every number the generator yields lies in [[0, 2^bits)]. *)
Theorem lcg_prng_range (seed bits : Z) (k : nat) :
  0 <= bits -> (1 <= k)%nat ->
  0 <= draw k (lcg_prng seed bits) < 2 ^ bits.
Proof. apply draw_range. Qed.

Lemma lcg_prng_range_witness :
  0 <= draw 3 (lcg_prng 1712875032 16) < 2 ^ 16.
Proof. apply (lcg_prng_range 1712875032 16 3); lia. Defined.

Lemma draw_mod_a (seed bits : Z) (k : nat) :
  1 <= bits / 2 -> (1 <= k)%nat ->
  draw k (lcg_prng seed bits) mod 2 ^ (bits / 2) = 1.
Proof.
  intros Hb Hk. destruct k as [|k]; [lia|].
  rewrite draw_succ. cbn [lcg_prng lcg_m lcg_a lcg_c].
  assert (0 <= bits) by (Z.div_mod_to_equations; lia).
  assert (2 <= 2 ^ (bits / 2)).
  { change 2 with (2 ^ 1) at 1. apply Z.pow_le_mono_r; lia. }
  rewrite Z.mod_mod_divide.
  - rewrite Z.add_comm, Z.mul_comm, Z.mod_add by lia. apply Z.mod_small. lia.
  - exists (2 ^ (bits - bits / 2)). rewrite <- Z.pow_add_r; [f_equal; lia | |];
      Z.div_mod_to_equations; lia.
Qed.

Lemma draw_even_constant (seed bits : Z) (k : nat) :
  2 <= bits -> bits mod 2 = 0 -> (2 <= k)%nat ->
  draw k (lcg_prng seed bits) = 2 ^ (bits / 2) + 1.
Proof.
  intros Hb Heven Hk. destruct k as [|k]; [lia|].
  rewrite draw_succ. cbn [lcg_prng lcg_m lcg_a lcg_c].
  assert (1 <= bits / 2) as Hj by (Z.div_mod_to_equations; lia).
  pose proof (draw_mod_a seed bits k Hj ltac:(lia)) as M.
  set (s := draw k (lcg_prng seed bits)) in *.
  set (a := 2 ^ (bits / 2)) in *.
  assert (2 <= a).
  { subst a. change 2 with (2 ^ 1) at 1. apply Z.pow_le_mono_r; lia. }
  assert (2 ^ bits = a * a) as ->.
  { subst a. rewrite <- Z.pow_add_r by lia. f_equal.
    Z.div_mod_to_equations; lia. }
  pose proof (Z.div_mod s a ltac:(lia)) as D. rewrite M in D.
  clearbody s. set (q := s / a) in *. clearbody q. subst s.
  replace (a * (a * q + 1) + 1) with (a + 1 + q * (a * a)) by ring.
  rewrite Z.mod_add by nia. apply Z.mod_small. nia.
Qed.

(** X8. For an even [bits >= 2] the generator is stuck from its second
    draw on: whatever the seed, every draw after the first is
    [2^(bits/2) + 1]. *)
Theorem lcg_prng_even_constant (seed bits : Z) (k : nat) :
  2 <= bits -> bits mod 2 = 0 -> (2 <= k)%nat ->
  draw k (lcg_prng seed bits) = 2 ^ (bits / 2) + 1.
Proof. apply draw_even_constant. Qed.

Lemma lcg_prng_even_constant_witness :
  draw 2 (lcg_prng 1712875032 1024) = 2 ^ (1024 / 2) + 1
  /\ draw 7 (lcg_prng 42 1024) = 2 ^ (1024 / 2) + 1.
Proof.
  split; [apply (lcg_prng_even_constant 1712875032 1024 2)
         | apply (lcg_prng_even_constant 42 1024 7)];
    try reflexivity; lia.
Defined.

(** X9. For an odd [bits >= 3] the generator is stuck from its third draw
    on: every later draw is [2^(bits-1) + 2^((bits-1)/2) + 1]. *)
Theorem lcg_prng_odd_constant (seed bits : Z) (k : nat) :
  3 <= bits -> bits mod 2 = 1 -> (3 <= k)%nat ->
  draw k (lcg_prng seed bits) = 2 ^ (bits - 1) + 2 ^ (bits / 2) + 1.
Proof.
  intros Hb Hodd Hk.
  assert (1 <= bits / 2) as Hj by (Z.div_mod_to_equations; lia).
  set (a := 2 ^ (bits / 2)).
  assert (2 <= a) as Ha.
  { subst a. change 2 with (2 ^ 1) at 1. apply Z.pow_le_mono_r; lia. }
  assert (2 ^ (bits - 1) = a * a) as E1.
  { subst a. rewrite <- Z.pow_add_r by lia. f_equal.
    Z.div_mod_to_equations; lia. }
  assert (2 ^ bits = 2 * (a * a)) as E2.
  { rewrite <- E1, <- Z.pow_succ_r by lia. f_equal. lia. }
  assert (a mod 2 = 0) as Ea.
  { subst a. replace (bits / 2) with (Z.succ (bits / 2 - 1)) by lia.
    rewrite Z.pow_succ_r by lia. rewrite Z.mul_comm. apply Z.mod_mul. lia. }
  (* the draw after a draw [s] with [s mod a = 1] *)
  assert (forall i, (1 <= i)%nat ->
            exists t, (t = 0 \/ t = 1)
              /\ draw (S i) (lcg_prng seed bits) = t * (a * a) + a + 1) as Step2.
  { intros i Hi. rewrite draw_succ. cbn [lcg_prng lcg_m lcg_a lcg_c]. fold a.
    pose proof (draw_mod_a seed bits i Hj Hi) as M. fold a in M.
    set (s := draw i (lcg_prng seed bits)) in *.
    pose proof (Z.div_mod s a ltac:(lia)) as D. rewrite M in D.
    clearbody s. set (q := s / a) in *. clearbody q. subst s.
    pose proof (Z.div_mod q 2 ltac:(lia)) as D2.
    pose proof (Z.mod_pos_bound q 2 ltac:(lia)) as B2.
    exists (q mod 2). split; [lia|]. rewrite E2.
    set (r := q mod 2) in *. clearbody r.
    set (h := q / 2) in *. clearbody h. subst q.
    replace (a * (a * (2 * h + r) + 1) + 1)
      with (r * (a * a) + a + 1 + h * (2 * (a * a))) by ring.
    rewrite Z.mod_add by nia. apply Z.mod_small. nia. }
  destruct k as [|[|[|k]]]; try lia.
  destruct (Step2 (S k) ltac:(lia)) as (t & Ht & Dk).
  rewrite draw_succ. cbn [lcg_prng lcg_m lcg_a lcg_c]. fold a.
  rewrite Dk, E1, E2.
  pose proof (Z.div_mod a 2 ltac:(lia)) as Da. rewrite Ea in Da.
  clear Step2 Dk E1 E2 Ea. clearbody a.
  set (h := a / 2) in *. clearbody h. subst a.
  replace (2 * h + 0) with (2 * h) by lia.
  replace (2 * h * (t * (2 * h * (2 * h)) + 2 * h + 1) + 1)
    with (2 * h * (2 * h) + 2 * h + 1 + (t * h) * (2 * (2 * h * (2 * h))))
    by ring.
  rewrite Z.mod_add by nia. apply Z.mod_small. nia.
Qed.

Lemma lcg_prng_odd_constant_witness :
  draw 3 (lcg_prng 1712875032 7) = 2 ^ (7 - 1) + 2 ^ (7 / 2) + 1
  /\ draw 9 (lcg_prng 5 33) = 2 ^ (33 - 1) + 2 ^ (33 / 2) + 1.
Proof.
  split; [apply (lcg_prng_odd_constant 1712875032 7 3)
         | apply (lcg_prng_odd_constant 5 33 9)];
    try reflexivity; lia.
Defined.

(** ** The primality test *)

Lemma halve_loop_returns (fuel : nat) : forall m,
  0 < m -> (Z.to_nat (Z.log2 m) < fuel)%nat ->
  exists d r, halve_loop fuel m = Some (Ok d)
              /\ m = d * 2 ^ Z.of_nat r /\ d mod 2 = 1 /\ 0 < d.
Proof.
  induction fuel as [|fuel IH]; intros m Hm Hf; [lia|].
  cbn [halve_loop].
  pose proof (Z.div_mod m 2 ltac:(lia)) as D.
  pose proof (Z.mod_pos_bound m 2 ltac:(lia)) as B.
  destruct (Z.eqb_spec (m mod 2) 0) as [E|E].
  - assert (0 < m / 2) as Hh by lia.
    assert (Z.log2 m = Z.succ (Z.log2 (m / 2))) as L.
    { replace m with (2 * (m / 2)) at 1 by lia. apply Z.log2_double. exact Hh. }
    pose proof (Z.log2_nonneg (m / 2)).
    destruct (IH (m / 2) Hh ltac:(lia)) as (d & r & Hd & Hr & Hodd & Hpos).
    exists d, (S r). split; [exact Hd|]. split; [|auto].
    rewrite Nat2Z.inj_succ, Z.pow_succ_r by lia. lia.
  - exists m, 0%nat. split; [reflexivity|].
    split; [change (2 ^ Z.of_nat 0) with 1; lia|]. split; lia.
Qed.

Lemma mr_loop_returns (j : nat) : forall fuel x d n,
  0 < d -> d * 2 ^ Z.of_nat j = n - 1 -> (j < fuel)%nat ->
  exists b, mr_loop fuel x d n = Some (Ok b).
Proof.
  induction j as [|j IH]; intros fuel x d n Hd Hj Hf;
    (destruct fuel as [|fuel]; [lia|]); cbn [mr_loop].
  - change (2 ^ Z.of_nat 0) with 1 in Hj.
    destruct (Z.eqb_spec d (n - 1)); [|lia]. eexists. reflexivity.
  - destruct (negb (d =? n - 1)); [|eexists; reflexivity].
    destruct (x * x mod n =? 1); [eexists; reflexivity|].
    destruct (x * x mod n =? n - 1); [eexists; reflexivity|].
    apply IH; [lia | | lia].
    rewrite Nat2Z.inj_succ, Z.pow_succ_r in Hj by lia. lia.
Qed.

Lemma miller_rabin_test_returns (fuel j : nat) (d n : Z) (g : rng) :
  5 <= n -> 0 < d -> d * 2 ^ Z.of_nat j = n - 1 -> (j < fuel)%nat ->
  exists b g', _miller_rabin_test fuel d n g = Some (Ok (b, g')).
Proof.
  intros Hn Hd Hj Hf. unfold _miller_rabin_test, randbelow, lift.
  destruct (Z.leb_spec (n - 3) 0); [lia|]. cbn [sbind].
  rewrite modexpo_outcome. destruct (Z.eqb_spec n 0); [lia|]. cbn [sbind].
  match goal with |- context [if ?c then _ else _] => destruct c end;
    [eexists; eexists; reflexivity|].
  match goal with |- context [mr_loop fuel ?x d n] =>
    destruct (mr_loop_returns j fuel x d n Hd Hj Hf) as [b ->] end.
  cbn [sbind]. eexists. eexists. reflexivity.
Qed.

Lemma witness_loop_returns (fuel j : nat) (d n : Z) :
  5 <= n -> 0 < d -> d * 2 ^ Z.of_nat j = n - 1 -> (j < fuel)%nat ->
  forall (k : nat) (g : rng),
  exists b g', witness_loop fuel k d n g = Some (Ok (b, g')).
Proof.
  intros Hn Hd Hj Hf. induction k as [|k IH]; intros g; cbn [witness_loop].
  - eexists. eexists. reflexivity.
  - destruct (miller_rabin_test_returns fuel j d n g Hn Hd Hj Hf)
      as (b & g' & ->). cbn [sbind].
    destruct b; cbn [negb]; [apply IH | eexists; eexists; reflexivity].
Qed.

Lemma pow2_le_log2 (d m : Z) (r : nat) :
  0 < d -> m = d * 2 ^ Z.of_nat r -> (r <= Z.to_nat (Z.log2 m))%nat.
Proof.
  intros Hd ->.
  assert (0 < 2 ^ Z.of_nat r) by (apply Z.pow_pos_nonneg; lia).
  assert (Z.of_nat r <= Z.log2 (d * 2 ^ Z.of_nat r)).
  { rewrite <- (Z.log2_pow2 (Z.of_nat r)) at 1 by lia.
    apply Z.log2_le_mono. nia. }
  lia.
Qed.

(** X10. [is_prime] answers on every input: it never raises, and with fuel
    above the bit length of [n] its loops end with a Boolean. *)
Theorem is_prime_returns (fuel : nat) (n k : Z) (g : rng) :
  (Z.to_nat (Z.log2 n) + 1 < fuel)%nat ->
  exists b g', is_prime fuel n k g = Some (Ok (b, g')).
Proof.
  intros Hf. unfold is_prime, lift.
  destruct (Z.leb_spec n 1); [cbn [orb]; eexists; eexists; reflexivity|].
  destruct (Z.eqb_spec n 4); [cbn [orb]; eexists; eexists; reflexivity|].
  cbn [orb].
  destruct (Z.leb_spec n 3); [eexists; eexists; reflexivity|].
  destruct (Z.eqb_spec (n mod 2) 0); [eexists; eexists; reflexivity|].
  assert (Z.log2 (n - 1) <= Z.log2 n) by (apply Z.log2_le_mono; lia).
  destruct (halve_loop_returns fuel (n - 1) ltac:(lia) ltac:(lia))
    as (d & r & -> & Hr & Hodd & Hd).
  cbn [sbind].
  pose proof (pow2_le_log2 d (n - 1) r Hd Hr).
  apply (witness_loop_returns fuel r d n); try lia.
Qed.

Lemma is_prime_returns_witness :
  exists b g', is_prime 12 561 20 rng0 = Some (Ok (b, g')).
Proof. apply (is_prime_returns 12 561 20 rng0). vm_compute. lia. Defined.

Lemma is_prime_accepted (fuel : nat) (n k : Z) (g g' : rng) :
  is_prime fuel n k g = Some (Ok (true, g')) -> 2 <= n.
Proof.
  unfold is_prime, lift. destruct (Z.leb_spec n 1); cbn [orb]; [discriminate|].
  intros _. lia.
Qed.

Lemma sqrt_one_mod_prime (n x : Z) :
  Z.prime n -> 0 <= x < n -> (x * x) mod n = 1 -> x = 1 \/ x = n - 1.
Proof.
  intros Hn Hx Hsq. pose proof (Z.prime_ge_2 n Hn).
  assert ((n | (x - 1) * (x + 1))) as D.
  { apply Z.mod_divide; [lia|].
    replace ((x - 1) * (x + 1)) with (x * x - 1) by ring.
    rewrite Zminus_mod, Hsq, Z.mod_1_l by lia. reflexivity. }
  apply Z.divide_prime_mul in D; [|exact Hn].
  destruct D as [D|D]; apply Z.mod_divide in D; try lia.
  - destruct (Z.eq_dec x 0) as [->|]; [simpl in Hsq; rewrite Z.mod_0_l in Hsq; lia|].
    rewrite Z.mod_small in D by lia. lia.
  - destruct (Z.eq_dec x (n - 1)) as [|]; [auto|].
    rewrite Z.mod_small in D by lia. lia.
Qed.

Lemma mr_loop_prime (j : nat) : forall fuel a d n,
  Z.prime n -> a mod n <> 0 ->
  0 < d -> d * 2 ^ Z.of_nat j = n - 1 -> (j < fuel)%nat ->
  a ^ d mod n <> 1 -> a ^ d mod n <> n - 1 ->
  mr_loop fuel (a ^ d mod n) d n = Some (Ok true).
Proof.
  induction j as [|j IH]; intros fuel a d n Hn Ha Hd Hj Hf H1 Hm1.
  - exfalso. change (2 ^ Z.of_nat 0) with 1 in Hj.
    apply H1. replace d with (n - 1) by lia. apply Z.fermat_nz; assumption.
  - destruct fuel as [|fuel]; [lia|]. cbn [mr_loop].
    pose proof (Z.prime_ge_2 n Hn).
    rewrite Nat2Z.inj_succ, Z.pow_succ_r in Hj by lia.
    assert (0 < 2 ^ Z.of_nat j) by (apply Z.pow_pos_nonneg; lia).
    destruct (Z.eqb_spec d (n - 1)); [nia|]. cbn [negb].
    assert ((a ^ d mod n * (a ^ d mod n)) mod n = a ^ (d * 2) mod n) as Sq.
    { rewrite <- Z.mul_mod by lia. rewrite <- Z.pow_2_r, <- Z.pow_mul_r by lia.
      reflexivity. }
    rewrite Sq.
    destruct (Z.eqb_spec (a ^ (d * 2) mod n) 1) as [E1|E1].
    + exfalso. rewrite <- Sq in E1.
      apply sqrt_one_mod_prime in E1; [tauto | exact Hn |].
      apply Z.mod_pos_bound. lia.
    + destruct (Z.eqb_spec (a ^ (d * 2) mod n) (n - 1)) as [E2|E2];
        [reflexivity|].
      apply IH; try assumption; lia.
Qed.

Lemma miller_rabin_test_prime (fuel j : nat) (d n : Z) (g : rng) :
  Z.prime n -> 5 <= n ->
  0 < d -> d * 2 ^ Z.of_nat j = n - 1 -> (j < fuel)%nat ->
  exists g', _miller_rabin_test fuel d n g = Some (Ok (true, g')).
Proof.
  intros Hp Hn Hd Hj Hf. unfold _miller_rabin_test, randbelow, lift.
  destruct (Z.leb_spec (n - 3) 0); [lia|]. cbn [sbind].
  set (a := draws g (cursor g) mod (n - 3) + 2).
  assert (2 <= a <= n - 2) as Ha
    by (subst a; pose proof (Z.mod_pos_bound (draws g (cursor g)) (n - 3)); lia).
  rewrite modexpo_spec by lia. cbn [sbind].
  destruct (Z.eqb_spec (a ^ d mod n) 1); cbn [orb];
    [eexists; reflexivity|].
  destruct (Z.eqb_spec (a ^ d mod n) (n - 1)); cbn [orb];
    [eexists; reflexivity|].
  rewrite (mr_loop_prime j fuel a d n); try assumption.
  - cbn [sbind]. eexists. reflexivity.
  - rewrite Z.mod_small by lia. lia.
Qed.

Lemma witness_loop_prime (fuel j : nat) (d n : Z) :
  Z.prime n -> 5 <= n ->
  0 < d -> d * 2 ^ Z.of_nat j = n - 1 -> (j < fuel)%nat ->
  forall (k : nat) (g : rng),
  exists g', witness_loop fuel k d n g = Some (Ok (true, g')).
Proof.
  intros Hp Hn Hd Hj Hf. induction k as [|k IH]; intros g; cbn [witness_loop].
  - eexists. reflexivity.
  - destruct (miller_rabin_test_prime fuel j d n g Hp Hn Hd Hj Hf) as (g' & ->).
    cbn [sbind negb]. apply IH.
Qed.

(** X11. [is_prime] has no false negatives: for a prime [n], any number of
    rounds and any entropy, it returns [True] (given fuel above the bit
    length of [n]). *)
Theorem is_prime_complete (fuel : nat) (n k : Z) (g : rng) :
  Z.prime n -> (Z.to_nat (Z.log2 n) + 1 < fuel)%nat ->
  exists g', is_prime fuel n k g = Some (Ok (true, g')).
Proof.
  intros Hp Hf. pose proof (Z.prime_ge_2 n Hp). unfold is_prime, lift.
  destruct (Z.leb_spec n 1); [lia|].
  destruct (Z.eqb_spec n 4) as [->|].
  { exfalso. destruct Hp as [_ Hp]. apply (Hp 2); [lia|]. exists 2. reflexivity. }
  cbn [orb].
  destruct (Z.leb_spec n 3); [eexists; reflexivity|].
  destruct (Z.eqb_spec (n mod 2) 0) as [E|E].
  { exfalso. destruct Hp as [_ Hp]. apply (Hp 2); [lia|].
    apply Z.mod_divide; [lia | exact E]. }
  assert (Z.log2 (n - 1) <= Z.log2 n) by (apply Z.log2_le_mono; lia).
  destruct (halve_loop_returns fuel (n - 1) ltac:(lia) ltac:(lia))
    as (d & r & -> & Hr & Hodd & Hd).
  cbn [sbind].
  pose proof (pow2_le_log2 d (n - 1) r Hd Hr).
  apply (witness_loop_prime fuel r d n); try assumption; lia.
Qed.

Lemma is_prime_complete_witness :
  exists g', is_prime 20 7681 20 rng0 = Some (Ok (true, g')).
Proof.
  apply (is_prime_complete 20 7681 20 rng0).
  - apply prime_check_sound. vm_compute. reflexivity.
  - vm_compute. lia.
Defined.

(** ** What the prime search returns *)

Lemma next_advance (generator : lcg) :
  next generator = (draw 1 generator, advance 1 generator).
Proof. reflexivity. Qed.

Lemma draw_advance (i k : nat) (generator : lcg) :
  draw k (advance i generator) = draw (i + k) generator.
Proof. unfold draw. rewrite advance_add. reflexivity. Qed.

Lemma find_p_draw (fuel : nat) : forall generator g p generator' g',
  find_p fuel generator g = Some (Ok (p, generator', g')) ->
  exists k, (1 <= k)%nat /\ generator' = advance k generator
            /\ p = draw k generator /\ 2 <= p.
Proof.
  induction fuel as [|fuel IH]; intros generator g p generator' g' E;
    cbn [find_p] in E; [discriminate|].
  rewrite next_advance in E.
  destruct (is_prime (S fuel) (draw 1 generator) 20 g) as [[[b g0]|x]|] eqn:P;
    cbn [sbind] in E; try discriminate.
  destruct b.
  - injection E as <- <- <-. exists 1%nat.
    apply is_prime_accepted in P. repeat split; auto.
  - apply IH in E. destruct E as (k & Hk & -> & -> & Hp).
    exists (S k). rewrite advance_add, draw_advance in *.
    repeat split; auto with arith.
Qed.

Lemma find_q_draw (fuel : nat) : forall p generator g q generator' g',
  find_q fuel p generator g = Some (Ok (q, generator', g')) ->
  exists k, (1 <= k)%nat /\ generator' = advance k generator
            /\ q = draw k generator /\ 2 <= q /\ p <> q.
Proof.
  induction fuel as [|fuel IH]; intros p generator g q generator' g' E;
    cbn [find_q] in E; [discriminate|].
  rewrite next_advance in E.
  assert (forall generator0 g0,
            find_q fuel p (advance 1 generator) g0 = Some (Ok (q, generator0, g'))
            -> generator0 = generator'
            -> exists k, (1 <= k)%nat /\ generator' = advance k generator
                         /\ q = draw k generator /\ 2 <= q /\ p <> q) as Rec.
  { intros generator0 g0 E0 <-. apply IH in E0.
    destruct E0 as (k & Hk & -> & -> & Hq & Hne).
    exists (S k). rewrite advance_add, draw_advance in *.
    repeat split; auto with arith. }
  destruct (Z.eqb_spec p (draw 1 generator)) as [Heq|Hne]; cbn [negb] in E.
  - eapply Rec; eauto.
  - destruct (is_prime (S fuel) (draw 1 generator) 20 g) as [[[b g0]|x]|] eqn:P;
      cbn [sbind] in E; try discriminate.
    destruct b.
    + injection E as <- <- <-. exists 1%nat.
      apply is_prime_accepted in P. repeat split; auto.
    + eapply Rec; eauto.
Qed.

(** X12. A pair that [generate_prime_pair] returns consists of two different
    draws of one generator, [p] drawn before [q]; both are at least 2 and
    below [2^bits], and they differ. *)
Theorem generate_prime_pair_draws (fuel : nat) (bits seed : Z) (g g' : rng)
    (p q : Z) :
  0 <= bits ->
  generate_prime_pair fuel bits seed g = Some (Ok (p, q, g')) ->
  exists i j, (1 <= i < j)%nat
    /\ p = draw i (lcg_prng seed bits) /\ q = draw j (lcg_prng seed bits)
    /\ 2 <= p < 2 ^ bits /\ 2 <= q < 2 ^ bits /\ p <> q.
Proof.
  intros Hb. unfold generate_prime_pair.
  destruct (find_p fuel (lcg_prng seed bits) g) as [[[[p0 gen0] g0]|x]|] eqn:P;
    cbn [sbind]; try discriminate.
  destruct (find_q fuel p0 gen0 g0) as [[[[q0 gen1] g1]|x]|] eqn:Q;
    cbn [sbind]; try discriminate.
  intros [= <- <- <-].
  apply find_p_draw in P. destruct P as (i & Hi & -> & -> & Hp).
  apply find_q_draw in Q. destruct Q as (k & Hk & _ & -> & Hq & Hne).
  exists i, (i + k)%nat. rewrite draw_advance in *.
  pose proof (draw_range seed bits i Hb Hi).
  pose proof (draw_range seed bits (i + k) Hb ltac:(lia)).
  repeat split; lia.
Qed.

Lemma generate_prime_pair_draws_witness :
  exists i j, (1 <= i < j)%nat
    /\ 7681 = draw i (lcg_prng 30 16) /\ 257 = draw j (lcg_prng 30 16)
    /\ 2 <= 7681 < 2 ^ 16 /\ 2 <= 257 < 2 ^ 16 /\ 7681 <> 257.
Proof.
  eapply (generate_prime_pair_draws 64 16 30 rng0 _ 7681 257); [lia|].
  vm_compute. reflexivity.
Defined.

(** X13. When the primes are asked with an even number of [bits >= 2],
    the second one is not random at all: every pair that
    [generate_prime_pair] returns has [q = 2^(bits/2) + 1] (for the default
    [generate_keys(2048)], [q = 2^512 + 1]), and [p] is 1 modulo
    [2^(bits/2)]. *)
Theorem generate_prime_pair_even (fuel : nat) (bits seed : Z) (g g' : rng)
    (p q : Z) :
  2 <= bits -> bits mod 2 = 0 ->
  generate_prime_pair fuel bits seed g = Some (Ok (p, q, g')) ->
  q = 2 ^ (bits / 2) + 1 /\ p mod 2 ^ (bits / 2) = 1 /\ p <> 2 ^ (bits / 2) + 1.
Proof.
  intros Hb Heven E.
  unfold generate_prime_pair in E.
  destruct (find_p fuel (lcg_prng seed bits) g) as [[[[p0 gen0] g0]|x]|] eqn:P;
    cbn [sbind] in E; try discriminate.
  destruct (find_q fuel p0 gen0 g0) as [[[[q0 gen1] g1]|x]|] eqn:Q;
    cbn [sbind] in E; try discriminate.
  injection E as <- <- <-.
  apply find_p_draw in P. destruct P as (i & Hi & -> & -> & Hp).
  apply find_q_draw in Q. destruct Q as (k & Hk & _ & -> & Hq & Hne).
  rewrite draw_advance in *.
  rewrite (draw_even_constant seed bits (i + k)) in * by (assumption || lia).
  split; [reflexivity|]. split; [|exact Hne].
  apply draw_mod_a; [Z.div_mod_to_equations; lia | exact Hi].
Qed.

Lemma generate_prime_pair_even_witness :
  257 = 2 ^ (16 / 2) + 1 /\ 7681 mod 2 ^ (16 / 2) = 1
  /\ 7681 <> 2 ^ (16 / 2) + 1.
Proof.
  eapply (generate_prime_pair_even 64 16 30 rng0 _ 7681 257);
    [lia | reflexivity | vm_compute; reflexivity].
Defined.

(** ** What [generate_keys] returns *)

Lemma mr_loop_no_raise (fuel : nat) : forall x d n e,
  mr_loop fuel x d n <> Some (Raise e).
Proof.
  induction fuel as [|fuel IH]; intros x d n e; cbn [mr_loop]; [discriminate|].
  destruct (negb (d =? n - 1)); [|discriminate].
  destruct (x * x mod n =? 1); [discriminate|].
  destruct (x * x mod n =? n - 1); [discriminate|]. apply IH.
Qed.

Lemma halve_loop_no_raise (fuel : nat) : forall d e,
  halve_loop fuel d <> Some (Raise e).
Proof.
  induction fuel as [|fuel IH]; intros d e; cbn [halve_loop]; [discriminate|].
  destruct (d mod 2 =? 0); [apply IH | discriminate].
Qed.

Lemma miller_rabin_test_no_raise (fuel : nat) (d n : Z) (g : rng) (e : exn) :
  5 <= n -> _miller_rabin_test fuel d n g <> Some (Raise e).
Proof.
  intros Hn. unfold _miller_rabin_test, randbelow, lift.
  destruct (Z.leb_spec (n - 3) 0); [lia|]. cbn [sbind].
  rewrite modexpo_outcome. destruct (Z.eqb_spec n 0); [lia|]. cbn [sbind].
  match goal with |- context [if ?c then _ else _] => destruct c end;
    [discriminate|].
  match goal with |- context [mr_loop fuel ?x d n] =>
    pose proof (mr_loop_no_raise fuel x d n e);
    destruct (mr_loop fuel x d n) as [[b|e']|] end;
    cbn [sbind]; congruence.
Qed.

Lemma witness_loop_no_raise (fuel : nat) (d n : Z) (e : exn) :
  5 <= n -> forall (k : nat) (g : rng),
  witness_loop fuel k d n g <> Some (Raise e).
Proof.
  intros Hn. induction k as [|k IH]; intros g; cbn [witness_loop];
    [discriminate|].
  pose proof (miller_rabin_test_no_raise fuel d n g e Hn).
  destruct (_miller_rabin_test fuel d n g) as [[[b g']|e']|]; cbn [sbind];
    try congruence.
  destruct (negb b); [discriminate | apply IH].
Qed.

Lemma is_prime_no_raise (fuel : nat) (n k : Z) (g : rng) (e : exn) :
  is_prime fuel n k g <> Some (Raise e).
Proof.
  unfold is_prime, lift.
  destruct (Z.leb_spec n 1); [discriminate|].
  destruct (Z.eqb_spec n 4); [discriminate|]. cbn [orb].
  destruct (Z.leb_spec n 3); [discriminate|].
  destruct (n mod 2 =? 0); [discriminate|].
  pose proof (halve_loop_no_raise fuel (n - 1) e).
  destruct (halve_loop fuel (n - 1)) as [[d|e']|]; cbn [sbind]; try congruence.
  apply witness_loop_no_raise. lia.
Qed.

Lemma find_p_no_raise (fuel : nat) : forall generator g e,
  find_p fuel generator g <> Some (Raise e).
Proof.
  induction fuel as [|fuel IH]; intros generator g e; cbn [find_p];
    [discriminate|].
  destruct (next generator) as [p generator0].
  pose proof (is_prime_no_raise (S fuel) p 20 g e).
  destruct (is_prime (S fuel) p 20 g) as [[[b g0]|e']|]; cbn [sbind];
    try congruence.
  destruct b; [discriminate | apply IH].
Qed.

Lemma find_q_no_raise (fuel : nat) : forall p generator g e,
  find_q fuel p generator g <> Some (Raise e).
Proof.
  induction fuel as [|fuel IH]; intros p generator g e; cbn [find_q];
    [discriminate|].
  destruct (next generator) as [q generator0].
  destruct (negb (p =? q)); [|apply IH].
  pose proof (is_prime_no_raise (S fuel) q 20 g e).
  destruct (is_prime (S fuel) q 20 g) as [[[b g0]|e']|]; cbn [sbind];
    try congruence.
  destruct b; [discriminate | apply IH].
Qed.

Lemma generate_prime_pair_no_raise (fuel : nat) (bits seed : Z) (g : rng)
    (e : exn) :
  generate_prime_pair fuel bits seed g <> Some (Raise e).
Proof.
  unfold generate_prime_pair.
  pose proof (find_p_no_raise fuel (lcg_prng seed bits) g e).
  destruct (find_p fuel (lcg_prng seed bits) g) as [[[[p gen0] g0]|e']|];
    cbn [sbind]; try congruence.
  pose proof (find_q_no_raise fuel p gen0 g0 e).
  destruct (find_q fuel p gen0 g0) as [[[[q gen1] g1]|e']|];
    cbn [sbind]; try congruence. discriminate.
Qed.

Lemma gcd_positive_zero (e : Z) : 0 < e -> gcd e 0 = e.
Proof.
  intros He. unfold gcd. destruct (egcd e 0) as [[g x] y] eqn:E.
  pose proof (egcd_abs _ _ _ _ _ E) as A.
  destruct (egcd_sign _ _ _ _ _ E) as (Hpos & _). specialize (Hpos He).
  rewrite Z.gcd_0_r in A. lia.
Qed.

Lemma exponent_loop_choice (fuel : nat) (phi e : Z) :
  exponent_loop fuel DEFAULT_E phi = Some (Ok e) ->
  e = (if gcd DEFAULT_E phi =? 1 then DEFAULT_E else 3)
  /\ gcd e phi = 1 /\ phi <> 0.
Proof.
  intros E.
  assert (gcd e phi = 1 /\ (e = DEFAULT_E \/ e = 3)) as [G He]
    by (eapply exponent_loop_result; eauto).
  assert (phi <> 0) as Hphi.
  { intros ->. rewrite gcd_positive_zero in G; unfold DEFAULT_E in He; lia. }
  split; [|auto].
  destruct fuel as [|fuel]; [discriminate|]. cbn [exponent_loop] in E.
  destruct (Z.eqb_spec (gcd DEFAULT_E phi) 1) as [G1|G1]; cbn [negb] in E.
  - injection E as <-. reflexivity.
  - destruct He as [-> | ->]; [contradiction | reflexivity].
Qed.




Lemma gcd_positive (e phi : Z) : 0 < e -> gcd e phi = Z.gcd e phi.
Proof.
  intros He. unfold gcd. destruct (egcd e phi) as [[g x] y] eqn:E.
  pose proof (egcd_abs _ _ _ _ _ E) as A.
  destruct (egcd_sign _ _ _ _ _ E) as (Hpos & _). specialize (Hpos He). lia.
Qed.

(** X15. The key pair [generate_keys] returns: both keys carry the same
    modulus [n = p * q] of two different numbers [p, q >= 2] that passed
    [is_prime], with [n < 2^bits]; [e] is 65537 if that is coprime to
    [phi = (p - 1) * (q - 1)] and 3 otherwise; and [d] is the inverse of [e]
    modulo [phi], in [[0, phi)]. *)
Theorem generate_keys_key_pair (fuel : nat) (bits seed : Z) (g : rng)
    (e n d n' : Z) :
  0 <= bits ->
  generate_keys fuel bits seed g = Some (Ok ((e, n), (d, n'))) ->
  exists p q g',
    generate_prime_pair fuel (bits / 2) seed g = Some (Ok (p, q, g'))
    /\ 2 <= p /\ 2 <= q /\ p <> q
    /\ n = p * q /\ n' = n /\ 6 <= n < 2 ^ bits
    /\ e = (if Z.gcd 65537 ((p - 1) * (q - 1)) =? 1 then 65537 else 3)
    /\ Z.gcd e ((p - 1) * (q - 1)) = 1
    /\ 0 <= d < (p - 1) * (q - 1)
    /\ (e * d) mod ((p - 1) * (q - 1)) = 1.
Proof.
  intros Hb E. unfold generate_keys in E.
  destruct (generate_prime_pair fuel (bits / 2) seed g)
    as [[[[p q] g']|x]|] eqn:P; cbn [sbind] in E; try discriminate.
  exists p, q, g'. split; [reflexivity|].
  assert (0 <= bits / 2) as Hb2 by (apply Z.div_pos; lia).
  assert (exists i j, (1 <= i < j)%nat
            /\ p = draw i (lcg_prng seed (bits / 2))
            /\ q = draw j (lcg_prng seed (bits / 2))
            /\ 2 <= p /\ 2 <= q /\ p <> q) as (i & j & Hij & Dp & Dq & Hp & Hq & Hne).
  { unfold generate_prime_pair in P.
    destruct (find_p fuel (lcg_prng seed (bits / 2)) g)
      as [[[[p0 gen0] g0]|x]|] eqn:FP; cbn [sbind] in P; try discriminate.
    destruct (find_q fuel p0 gen0 g0) as [[[[q0 gen1] g1]|x]|] eqn:FQ;
      cbn [sbind] in P; try discriminate.
    injection P as <- <- <-.
    apply find_p_draw in FP. destruct FP as (i & Hi & -> & -> & Hp).
    apply find_q_draw in FQ. destruct FQ as (k & Hk & _ & -> & Hq & Hne).
    rewrite draw_advance in *.
    exists i, (i + k)%nat. repeat split; auto; lia. }
  pose proof (draw_range seed (bits / 2) i Hb2 ltac:(lia)) as Rp.
  pose proof (draw_range seed (bits / 2) j Hb2 ltac:(lia)) as Rq.
  rewrite <- Dp in Rp. rewrite <- Dq in Rq.
  unfold keys_of_primes in E. rewrite !karatsuba_multiply_mul in E.
  set (phi := (p - 1) * (q - 1)) in *.
  assert (2 <= phi) as Hphi by (subst phi; nia).
  destruct (exponent_loop fuel DEFAULT_E phi) as [[e0|x]|] eqn:L;
    cbn [sbind] in E; try discriminate.
  destruct (modinv e0 phi) as [d0|x] eqn:M; cbn [sbind] in E;
    try discriminate.
  injection E as <- <- <- <-.
  apply exponent_loop_choice in L. destruct L as (He & G & _).
  assert (0 < e0) as He0
    by (rewrite He; unfold DEFAULT_E; destruct (_ =? 1); lia).
  rewrite gcd_positive in G by exact He0.
  rewrite gcd_positive in He by (unfold DEFAULT_E; lia).
  apply modinv_inverse in M. destruct M as (_ & Hed & Hd).
  rewrite (Z.mod_1_l phi) in Hed by lia.
  pose proof (Z.mod_pos_bound d0 phi ltac:(lia)).
  repeat split; try assumption; try lia; try nia.
  assert (2 ^ bits / 2 * 2 <= 2 ^ bits) by (Z.div_mod_to_equations; lia).
  assert (2 ^ (bits / 2) * 2 ^ (bits / 2) <= 2 ^ bits).
  { rewrite <- Z.pow_add_r by lia. apply Z.pow_le_mono_r; [lia|].
    Z.div_mod_to_equations; lia. }
  nia.
Qed.

Lemma generate_keys_key_pair_witness :
  exists p q g',
    generate_prime_pair 64 (32 / 2) 30 rng0 = Some (Ok (p, q, g'))
    /\ 2 <= p /\ 2 <= q /\ p <> q
    /\ 1974017 = p * q /\ 1974017 = 1974017 /\ 6 <= 1974017 < 2 ^ 32
    /\ 65537 = (if Z.gcd 65537 ((p - 1) * (q - 1)) =? 1 then 65537 else 3)
    /\ Z.gcd 65537 ((p - 1) * (q - 1)) = 1
    /\ 0 <= 458753 < (p - 1) * (q - 1)
    /\ (65537 * 458753) mod ((p - 1) * (q - 1)) = 1.
Proof.
  apply (generate_keys_key_pair 64 32 30 rng0 65537 1974017 458753 1974017);
    [lia | vm_compute; reflexivity].
Defined.

(** X16. When half the requested [bits] is an even number [b >= 2], every
    modulus that [generate_keys] returns is [p * (2^(b/2) + 1)]: it has the
    known factor [2^(b/2) + 1] and is below [2^(b + b/2 + 1)], so about a
    quarter of the requested bits are missing (for 2048 bits: the factor
    [2^512 + 1], at most 1537 bits). *)
Theorem generate_keys_known_factor (fuel : nat) (bits seed : Z) (g : rng)
    (public_key private_key : Z * Z) :
  2 <= bits / 2 -> (bits / 2) mod 2 = 0 ->
  generate_keys fuel bits seed g = Some (Ok (public_key, private_key)) ->
  (2 ^ (bits / 2 / 2) + 1 | snd public_key)
  /\ snd public_key < 2 ^ (bits / 2 + bits / 2 / 2 + 1).
Proof.
  intros Hb Heven E. unfold generate_keys in E.
  destruct (generate_prime_pair fuel (bits / 2) seed g)
    as [[[[p q] g']|x]|] eqn:P; cbn [sbind] in E; try discriminate.
  destruct public_key as [e n]. destruct private_key as [d n'].
  apply keys_of_primes_result in E. destruct E as (-> & _).
  unfold generate_prime_pair in P.
  destruct (find_p fuel (lcg_prng seed (bits / 2)) g)
    as [[[[p0 gen0] g0]|x]|] eqn:FP; cbn [sbind] in P; try discriminate.
  destruct (find_q fuel p0 gen0 g0) as [[[[q0 gen1] g1]|x]|] eqn:FQ;
    cbn [sbind] in P; try discriminate.
  injection P as <- <- <-.
  apply find_p_draw in FP. destruct FP as (i & Hi & -> & -> & Hp).
  apply find_q_draw in FQ. destruct FQ as (k & Hk & _ & -> & Hq & Hne).
  rewrite draw_advance in *.
  rewrite (draw_even_constant seed (bits / 2) (i + k)) in *
    by (assumption || lia).
  pose proof (draw_range seed (bits / 2) i ltac:(lia) Hi) as Rp.
  cbn [snd]. split; [apply Z.divide_factor_r|].
  set (p := draw i (lcg_prng seed (bits / 2))) in *.
  set (b := bits / 2) in *.
  assert (1 <= b / 2) by (Z.div_mod_to_equations; lia).
  assert (2 <= 2 ^ (b / 2)).
  { change 2 with (2 ^ 1) at 1. apply Z.pow_le_mono_r; lia. }
  replace (b + b / 2 + 1) with (b + Z.succ (b / 2)) by lia.
  rewrite Z.pow_add_r, Z.pow_succ_r by lia.
  assert (0 < 2 ^ b) by (apply Z.pow_pos_nonneg; lia).
  nia.
Qed.

Lemma generate_keys_known_factor_witness :
  (2 ^ (32 / 2 / 2) + 1 | snd (65537, 1974017))
  /\ snd (65537, 1974017) < 2 ^ (32 / 2 + 32 / 2 / 2 + 1).
Proof.
  apply (generate_keys_known_factor 64 32 30 rng0 (65537, 1974017)
           (458753, 1974017));
    [vm_compute; discriminate | reflexivity | vm_compute; reflexivity].
Defined.

(** The factor for the default key size. *)
Example default_modulus_factor :
  2 ^ (2048 / 2 / 2) + 1 = 2 ^ 512 + 1 /\ (2424833 | 2 ^ 512 + 1).
Proof.
  split; [reflexivity|]. apply Z.mod_divide; [lia|]. vm_compute. reflexivity.
Qed.

(** ** More on the block codec *)

Lemma bytes_to_int_app_aux (b1 b2 : list Z) :
  bytes_to_int (b1 ++ b2)
  = bytes_to_int b1 + 256 ^ Z.of_nat (List.length b1) * bytes_to_int b2.
Proof.
  induction b1 as [|x b1 IH].
  - cbn [app List.length]. change (bytes_to_int []) with 0.
    change (256 ^ Z.of_nat 0) with 1. lia.
  - cbn [app List.length]. rewrite !bytes_to_int_cons, IH.
    rewrite Nat2Z.inj_succ, Z.pow_succ_r by lia. ring.
Qed.

(** X17. [bytes_to_int] of a concatenation: the second part is shifted by
    the length of the first,
    [bytes_to_int (b1 + b2) = bytes_to_int b1 + 256^len(b1) * bytes_to_int b2]. *)
Theorem bytes_to_int_app (b1 b2 : list Z) :
  bytes_to_int (b1 ++ b2)
  = bytes_to_int b1 + 256 ^ Z.of_nat (List.length b1) * bytes_to_int b2.
Proof. apply bytes_to_int_app_aux. Qed.

Lemma bytes_to_int_zeros (k : nat) : bytes_to_int (repeat 0 k) = 0.
Proof.
  induction k as [|k IH]; [reflexivity|].
  cbn [repeat]. rewrite bytes_to_int_cons, IH. reflexivity.
Qed.

(** X18. Trailing zero bytes are lost: they do not change [bytes_to_int],
    and a non-empty sequence ending in a non-zero byte, followed by any
    number of zero bytes, comes back from [int_to_bytes] without them. *)
Theorem trailing_zeros_lost (b : list Z) (k : nat) :
  is_bytes b -> b <> [] -> last b 0 <> 0 ->
  bytes_to_int (b ++ repeat 0 k) = bytes_to_int b
  /\ int_to_bytes (bytes_to_int (b ++ repeat 0 k)) = b.
Proof.
  intros Hb Hne Hlast.
  assert (bytes_to_int (b ++ repeat 0 k) = bytes_to_int b) as E
    by (rewrite bytes_to_int_app_aux, bytes_to_int_zeros; lia).
  split; [exact E|]. rewrite E. unfold int_to_bytes.
  pose proof (bytes_to_int_pos b Hb Hne Hlast) as Hp.
  destruct (Z.eqb_spec (bytes_to_int b) 0); [lia|].
  apply digits_bytes_to_int; [exact Hb | right; exact Hlast].
Qed.

Lemma trailing_zeros_lost_witness :
  bytes_to_int ([72; 105] ++ repeat 0 3) = bytes_to_int [72; 105]
  /\ int_to_bytes (bytes_to_int ([72; 105] ++ repeat 0 3)) = [72; 105].
Proof.
  apply (trailing_zeros_lost [72; 105] 3).
  - repeat constructor; lia.
  - discriminate.
  - simpl. lia.
Defined.

(** X19. At a fixed length the encoding loses nothing: two byte sequences of
    the same length with the same [bytes_to_int] are equal. *)
Theorem bytes_to_int_injective (b1 : list Z) : forall b2,
  is_bytes b1 -> is_bytes b2 -> List.length b1 = List.length b2 ->
  bytes_to_int b1 = bytes_to_int b2 -> b1 = b2.
Proof.
  induction b1 as [|x b1 IH]; intros [|y b2] H1 H2 Hlen E;
    try discriminate; [reflexivity|].
  inversion H1 as [|? ? Hx H1']; inversion H2 as [|? ? Hy H2']; subst.
  rewrite !bytes_to_int_cons in E.
  assert (x = y /\ bytes_to_int b1 = bytes_to_int b2) as [-> E'] by lia.
  f_equal. apply IH; auto.
Qed.

Lemma bytes_to_int_injective_witness : [1; 0] = [1; 0].
Proof.
  apply (bytes_to_int_injective [1; 0] [1; 0]);
    try reflexivity; repeat constructor; lia.
Defined.

Lemma bytes_to_int_lower (b : list Z) :
  is_bytes b -> b <> [] -> last b 0 <> 0 ->
  256 ^ (Z.of_nat (List.length b) - 1) <= bytes_to_int b.
Proof.
  induction 1 as [|x l Hx Hl IH]; intros Hne Hlast; [congruence|].
  rewrite bytes_to_int_cons. cbn [List.length]. rewrite Nat2Z.inj_succ.
  replace (Z.succ (Z.of_nat (List.length l)) - 1)
    with (Z.of_nat (List.length l)) by lia.
  destruct l as [|y l'].
  - simpl in Hlast |- *. change (bytes_to_int []) with 0. lia.
  - specialize (IH ltac:(discriminate) Hlast).
    replace (Z.of_nat (List.length (y :: l')))
      with (Z.succ (Z.of_nat (List.length (y :: l')) - 1)) at 1 by lia.
    rewrite Z.pow_succ_r by (cbn [List.length]; lia). lia.
Qed.

Lemma int_to_bytes_loop_canonical (t : Z) :
  0 < t ->
  is_bytes (int_to_bytes_loop [] t)
  /\ int_to_bytes_loop [] t <> []
  /\ last (int_to_bytes_loop [] t) 0 <> 0.
Proof.
  induction t as [t IH] using (well_founded_induction (Zwf_well_founded 0)).
  intros Ht. rewrite int_to_bytes_loop_pos by exact Ht.
  pose proof (Z.mod_pos_bound t 256 ltac:(lia)) as B.
  pose proof (Z.div_mod t 256 ltac:(lia)) as D.
  destruct (Z_lt_dec 0 (t / 256)) as [Hq|Hq].
  - destruct (IH (t / 256)) as (I1 & I2 & I3);
      [unfold Zwf; lia | exact Hq |].
    split; [constructor; assumption|]. split; [discriminate|].
    destruct (int_to_bytes_loop [] (t / 256)); [congruence | exact I3].
  - assert (0 <= t / 256) by (apply Z.div_pos; lia).
    rewrite int_to_bytes_loop_nonpos by lia.
    split; [repeat constructor; lia|]. split; [discriminate|].
    simpl. lia.
Qed.

(** X20. For [n > 0], [int_to_bytes n] is the shortest little-endian form:
    a non-empty sequence of bytes ending in a non-zero byte, of the length
    [L] with [256^(L-1) <= n < 256^L]. *)
Theorem int_to_bytes_canonical (n : Z) :
  0 < n ->
  is_bytes (int_to_bytes n)
  /\ int_to_bytes n <> []
  /\ last (int_to_bytes n) 0 <> 0
  /\ 256 ^ (Z.of_nat (List.length (int_to_bytes n)) - 1) <= n
     < 256 ^ Z.of_nat (List.length (int_to_bytes n)).
Proof.
  intros Hn. unfold int_to_bytes. destruct (Z.eqb_spec n 0); [lia|].
  destruct (int_to_bytes_loop_canonical n Hn) as (H1 & H2 & H3).
  repeat split; try assumption.
  - rewrite <- (bytes_to_int_loop_digits n) at 2 by lia.
    apply bytes_to_int_lower; assumption.
  - rewrite <- (bytes_to_int_loop_digits n) at 1 by lia.
    apply bytes_to_int_upper; assumption.
Qed.

Lemma int_to_bytes_canonical_witness :
  is_bytes (int_to_bytes 65536)
  /\ int_to_bytes 65536 <> []
  /\ last (int_to_bytes 65536) 0 <> 0
  /\ 256 ^ (Z.of_nat (List.length (int_to_bytes 65536)) - 1) <= 65536
     < 256 ^ Z.of_nat (List.length (int_to_bytes 65536)).
Proof. apply (int_to_bytes_canonical 65536). lia. Defined.

(** X21. A negative integer takes neither branch of [int_to_bytes]: the
    result is the empty bytes, which [bytes_to_int] reads back as 0. *)
Theorem int_to_bytes_negative (n : Z) :
  n < 0 -> int_to_bytes n = [] /\ bytes_to_int (int_to_bytes n) = 0.
Proof.
  intros Hn. unfold int_to_bytes. destruct (Z.eqb_spec n 0); [lia|].
  rewrite int_to_bytes_loop_nonpos by lia. split; reflexivity.
Qed.

Lemma int_to_bytes_negative_witness :
  int_to_bytes (-5) = [] /\ bytes_to_int (int_to_bytes (-5)) = 0.
Proof. apply (int_to_bytes_negative (-5)). lia. Defined.

(** ** More on [encrypt] and [decrypt] *)

Lemma blocks_of_length (max_block_size : Z) (message_bytes : list Z) :
  List.length (blocks_of max_block_size message_bytes)
  = Z.to_nat ((Z.of_nat (List.length message_bytes) + max_block_size - 1)
              / max_block_size).
Proof.
  unfold blocks_of. rewrite length_map, range_length. do 2 f_equal. lia.
Qed.

(** X22. With a modulus [n > 0] of more than eight bits, [encrypt] returns
    one integer per block, [ceil(len / max_block_size)] of them for [len]
    message bytes (none for the empty message), each in [[0, n)]. *)
Theorem encrypt_ciphertext (e n : Z) (message message_bytes : list Z) :
  0 < n -> 8 < bit_length n -> utf8_encode message = Ok message_bytes ->
  exists encrypted_blocks,
    encrypt message (e, n) = Ok encrypted_blocks
    /\ Z.of_nat (List.length encrypted_blocks)
       = (Z.of_nat (List.length message_bytes) + ((bit_length n + 7) / 8 - 1) - 1)
         / ((bit_length n + 7) / 8 - 1)
    /\ Forall (fun c => 0 <= c < n) encrypted_blocks.
Proof.
  intros Hn Hbits Henc.
  assert (0 < (bit_length n + 7) / 8 - 1) as Hk by (Z.div_mod_to_equations; lia).
  eexists. split; [rewrite encrypt_unfold by exact Hk; rewrite Henc; reflexivity|].
  assert (256 <= n) as Hn256.
  { pose proof (bit_length_spec n Hn) as [L _].
    eapply Z.le_trans; [|exact L]. change 256 with (2 ^ 8).
    apply Z.pow_le_mono_r; lia. }
  split.
  - rewrite length_map, blocks_of_length. rewrite Z2Nat.id; [reflexivity|].
    apply Z.div_pos; lia.
  - apply Forall_forall. intros c Hc. apply in_map_iff in Hc.
    destruct Hc as (block & <- & _).
    rewrite modexpo_loop_general by lia.
    destruct (e <=? 0); [lia|].
    rewrite Z.mul_1_l. apply Z.mod_pos_bound. lia.
Qed.

Lemma encrypt_ciphertext_witness :
  exists encrypted_blocks,
    encrypt [72; 105; 233] (17, 3233) = Ok encrypted_blocks
    /\ Z.of_nat (List.length encrypted_blocks)
       = (Z.of_nat (List.length [72; 105; 195; 169])
          + ((bit_length 3233 + 7) / 8 - 1) - 1)
         / ((bit_length 3233 + 7) / 8 - 1)
    /\ Forall (fun c => 0 <= c < 3233) encrypted_blocks.
Proof.
  apply (encrypt_ciphertext 17 3233 [72; 105; 233] [72; 105; 195; 169]);
    [lia | vm_compute; reflexivity | reflexivity].
Defined.

Lemma ok_not_raise {A : Type} (a : A) (e : exn) : Ok a <> Raise e.
Proof. discriminate. Qed.

Lemma utf8_encode_cp_surrogate (c : Z) :
  utf8_encode_cp c = Raise UnicodeEncodeError <-> 55296 <= c <= 57343.
Proof.
  unfold utf8_encode_cp.
  destruct (Z.ltb_spec c 128);
    [split; [intros H'; destruct (ok_not_raise _ _ H') | lia]|].
  destruct (Z.ltb_spec c 2048);
    [split; [intros H'; destruct (ok_not_raise _ _ H') | lia]|].
  destruct (Z.leb_spec 55296 c); destruct (Z.leb_spec c 57343); cbn [andb];
    try (split; [intros _; lia | intros _; reflexivity]);
    (destruct (c <? 65536);
     (split; [intros H'; destruct (ok_not_raise _ _ H') | lia])).
Qed.

Lemma utf8_encode_surrogate (s : list Z) :
  utf8_encode s = Raise UnicodeEncodeError
  <-> exists c, In c s /\ 55296 <= c <= 57343.
Proof.
  induction s as [|c s IH]; cbn [utf8_encode].
  - split; [discriminate | intros (c & [] & _)].
  - pose proof (utf8_encode_cp_surrogate c) as Hc.
    destruct (utf8_encode_cp c) as [b0|e0] eqn:E0; cbn [bind].
    + destruct (utf8_encode s) as [bs|e1] eqn:E1; cbn [bind].
      * split; [discriminate|]. intros (c' & [<-|Hin] & Hs).
        -- apply Hc in Hs. discriminate.
        -- assert (Ok bs = Raise UnicodeEncodeError) by (apply IH; eauto).
           discriminate.
      * apply utf8_encode_raises in E1. subst e1.
        split; [|reflexivity]. intros _.
        destruct IH as [IH _]. destruct (IH eq_refl) as (c' & Hin & Hs).
        exists c'. split; [right; exact Hin | exact Hs].
    + assert (e0 = UnicodeEncodeError) as ->.
      { apply (utf8_encode_raises [c]). cbn [utf8_encode]. rewrite E0.
        reflexivity. }
      split; [|reflexivity]. intros _. exists c.
      split; [left; reflexivity | apply Hc; reflexivity].
Qed.

(** X23. With a modulus of more than eight bits, [encrypt] fails exactly on
    a message holding a surrogate code point (U+D800..U+DFFF), with
    [UnicodeEncodeError] from the encoding step; every other message is
    encrypted. *)
Theorem encrypt_surrogate (e n : Z) (message : list Z) :
  8 < bit_length n ->
  (encrypt message (e, n) = Raise UnicodeEncodeError
   <-> exists c, In c message /\ 55296 <= c <= 57343)
  /\ ((forall c, In c message -> ~ (55296 <= c <= 57343)) ->
      exists encrypted_blocks, encrypt message (e, n) = Ok encrypted_blocks).
Proof.
  intros Hbits.
  assert (0 < (bit_length n + 7) / 8 - 1) as Hk by (Z.div_mod_to_equations; lia).
  rewrite encrypt_unfold by exact Hk.
  pose proof (utf8_encode_surrogate message) as S.
  destruct (utf8_encode message) as [b|x] eqn:E; cbn [bind].
  - split.
    + split; [discriminate|]. intros H. apply S in H. discriminate.
    + intros _. eexists. reflexivity.
  - apply utf8_encode_raises in E. subst x. split.
    + split; [intros _; apply S; reflexivity | reflexivity].
    + intros Hno. destruct S as [S _].
      destruct (S eq_refl) as (c & Hin & Hs). exfalso. eapply Hno; eauto.
Qed.

Lemma encrypt_surrogate_witness :
  (encrypt [72; 55357] (17, 3233) = Raise UnicodeEncodeError
   <-> exists c, In c [72; 55357] /\ 55296 <= c <= 57343)
  /\ ((forall c, In c [72; 55357] -> ~ (55296 <= c <= 57343)) ->
      exists encrypted_blocks,
        encrypt [72; 55357] (17, 3233) = Ok encrypted_blocks).
Proof. apply (encrypt_surrogate 17 3233 [72; 55357]). vm_compute. reflexivity. Defined.

Lemma decrypt_loop_total (d n : Z) : n <> 0 ->
  forall cipher_blocks decrypted_bytes,
  exists b, decrypt_loop d n cipher_blocks decrypted_bytes = Ok b.
Proof.
  intros Hn. induction cipher_blocks as [|c cs IH]; intros acc;
    cbn [decrypt_loop].
  - eexists. reflexivity.
  - rewrite modexpo_nonzero by exact Hn. cbn [bind]. apply IH.
Qed.

(** X24. [decrypt] is lenient: with a non-zero modulus it returns a string
    for every list of integers, whatever the key; the empty list gives the
    empty string; only a zero modulus with a non-empty list fails, with
    [ZeroDivisionError]. *)
Theorem decrypt_outcome (cipher_blocks : list Z) (d n : Z) :
  (n <> 0 -> exists message, decrypt cipher_blocks (d, n) = Ok message)
  /\ decrypt [] (d, n) = Ok []
  /\ (n = 0 -> cipher_blocks <> [] ->
      decrypt cipher_blocks (d, n) = Raise ZeroDivisionError).
Proof.
  split; [|split].
  - intros Hn. unfold decrypt.
    destruct (decrypt_loop_total d n Hn cipher_blocks []) as [b ->].
    cbn [bind]. eexists. reflexivity.
  - reflexivity.
  - intros -> Hne. destruct cipher_blocks as [|c cs]; [congruence|].
    reflexivity.
Qed.


(** ** The round trip, block by block *)

Lemma utf8_encode_cp_length (c : Z) :
  match utf8_encode_cp c with
  | Ok b => List.length b = utf8_cp_length c
  | Raise _ => True
  end.
Proof.
  unfold utf8_encode_cp, utf8_cp_length.
  destruct (c <? 128); [reflexivity|].
  destruct (c <? 2048); [reflexivity|].
  destruct ((55296 <=? c) && (c <=? 57343)); [exact I|].
  destruct (c <? 65536); reflexivity.
Qed.

Lemma utf8_encode_length (s : list Z) : forall b,
  utf8_encode s = Ok b -> List.length b = utf8_length s.
Proof.
  induction s as [|c s IH]; intros b E; cbn [utf8_encode] in E.
  - injection E as <-. reflexivity.
  - pose proof (utf8_encode_cp_length c) as L.
    destruct (utf8_encode_cp c) as [b0|]; [|discriminate].
    destruct (utf8_encode s) as [bs|]; [|discriminate].
    cbn [bind] in E. injection E as <-.
    rewrite length_app, L, (IH bs eq_refl). reflexivity.
Qed.

Lemma utf8_length_cons (c : Z) (s : list Z) :
  utf8_length (c :: s) = (utf8_cp_length c + utf8_length s)%nat.
Proof. reflexivity. Qed.

Lemma is_cont_spec (b : Z) : is_cont b = true -> 128 <= b <= 191.
Proof. unfold is_cont. lia. Qed.

(** Decoding with [errors='ignore'] never yields more than the bytes could
    encode. *)
Lemma utf8_decode_length (n : nat) : forall b,
  (List.length b <= n)%nat ->
  (utf8_length (utf8_decode_ignore b) <= List.length b)%nat.
Proof.
  induction n as [|n IH]; intros [|b0 r0] Hn; cbn [List.length] in *;
    try (cbn; lia).
  assert (H0 := IH r0 ltac:(lia)).
  cbn [utf8_decode_ignore].
  destruct ((0 <=? b0) && (b0 <? 128)) eqn:E1.
  { rewrite utf8_length_cons. unfold utf8_cp_length.
    apply andb_true_iff in E1. destruct E1 as [_ ->]. lia. }
  destruct ((194 <=? b0) && (b0 <=? 223)) eqn:E2.
  { destruct r0 as [|b1 r1]; [lia|].
    destruct (is_cont b1) eqn:C1; [|lia].
    apply is_cont_spec in C1.
    assert (H1 := IH r1 ltac:(cbn [List.length] in Hn; lia)).
    rewrite utf8_length_cons. cbn [List.length] in *.
    enough (utf8_cp_length ((b0 - 192) * 64 + (b1 - 128)) = 2%nat) by lia.
    unfold utf8_cp_length.
    destruct (Z.ltb_spec ((b0 - 192) * 64 + (b1 - 128)) 128); [lia|].
    destruct (Z.ltb_spec ((b0 - 192) * 64 + (b1 - 128)) 2048); [reflexivity | lia]. }
  destruct ((224 <=? b0) && (b0 <=? 239)) eqn:E3.
  { destruct r0 as [|b1 [|b2 r2]]; try lia.
    match goal with |- context [if ?c then _ else _] => destruct c eqn:C end;
      [|lia].
    unfold is_cont in C.
    assert (H2 := IH r2 ltac:(cbn [List.length] in Hn; lia)).
    rewrite utf8_length_cons. cbn [List.length] in *.
    enough (utf8_cp_length ((b0 - 224) * 4096 + (b1 - 128) * 64 + (b2 - 128))
            = 3%nat) by lia.
    unfold utf8_cp_length.
    destruct (Z.ltb_spec ((b0 - 224) * 4096 + (b1 - 128) * 64 + (b2 - 128)) 128);
      [lia|].
    destruct (Z.ltb_spec ((b0 - 224) * 4096 + (b1 - 128) * 64 + (b2 - 128)) 2048);
      [lia|].
    destruct (Z.ltb_spec ((b0 - 224) * 4096 + (b1 - 128) * 64 + (b2 - 128)) 65536);
      [reflexivity | lia]. }
  destruct ((240 <=? b0) && (b0 <=? 244)) eqn:E4; [|lia].
  destruct r0 as [|b1 [|b2 [|b3 r3]]]; try lia.
  match goal with |- context [if ?c then _ else _] => destruct c eqn:C end;
    [|lia].
  unfold is_cont in C.
  assert (H3 := IH r3 ltac:(cbn [List.length] in Hn; lia)).
  rewrite utf8_length_cons. cbn [List.length] in *.
  enough (utf8_cp_length ((b0 - 240) * 262144 + (b1 - 128) * 4096
                          + (b2 - 128) * 64 + (b3 - 128)) = 4%nat) by lia.
  unfold utf8_cp_length.
  destruct (Z.ltb_spec ((b0 - 240) * 262144 + (b1 - 128) * 4096
                        + (b2 - 128) * 64 + (b3 - 128)) 128); [lia|].
  destruct (Z.ltb_spec ((b0 - 240) * 262144 + (b1 - 128) * 4096
                        + (b2 - 128) * 64 + (b3 - 128)) 2048); [lia|].
  destruct (Z.ltb_spec ((b0 - 240) * 262144 + (b1 - 128) * 4096
                        + (b2 - 128) * 64 + (b3 - 128)) 65536); [lia|].
  reflexivity.
Qed.

Lemma stripped_canonical (block : list Z) :
  is_bytes block -> canonical_block block -> stripped block = block.
Proof.
  intros Hb [-> | Hlast]; [reflexivity|].
  assert (block <> []) as Hne by (intros ->; apply Hlast; reflexivity).
  unfold stripped, int_to_bytes.
  pose proof (bytes_to_int_pos block Hb Hne Hlast) as Hp.
  destruct (Z.eqb_spec (bytes_to_int block) 0); [lia|].
  apply digits_bytes_to_int; [exact Hb | right; exact Hlast].
Qed.

Lemma stripped_length (block : list Z) :
  is_bytes block -> block <> [] ->
  (List.length (stripped block) <= List.length block)%nat.
Proof.
  intros Hb Hne. unfold stripped, int_to_bytes.
  pose proof (bytes_to_int_nonneg block Hb) as Hv.
  pose proof (bytes_to_int_upper block Hb) as Hu.
  destruct (Z.eqb_spec (bytes_to_int block) 0) as [|Hnz].
  - destruct block; [congruence | cbn [List.length]; lia].
  - destruct (int_to_bytes_loop_canonical (bytes_to_int block) ltac:(lia))
      as (I1 & I2 & I3).
    pose proof (bytes_to_int_lower _ I1 I2 I3) as Hl.
    rewrite bytes_to_int_loop_digits in Hl by exact Hv.
    assert (Z.of_nat (List.length (int_to_bytes_loop [] (bytes_to_int block))) - 1
            < Z.of_nat (List.length block)); [|lia].
    apply (Z.pow_lt_mono_r_iff 256); lia.
Qed.

Lemma stripped_shorter (block : list Z) :
  is_bytes block -> block <> [] ->
  List.length (stripped block) = List.length block -> canonical_block block.
Proof.
  intros Hb Hne Hlen.
  destruct (Z.eq_dec (last block 0) 0) as [Hz|Hz]; [|right; exact Hz].
  left. pose proof (app_removelast_last 0 Hne) as E. rewrite Hz in E.
  revert E. generalize (removelast block). intros b' ->.
  destruct b' as [|x b'']; [reflexivity|]. exfalso.
  apply Forall_app in Hb. destruct Hb as [Hb' _].
  pose proof (stripped_length (x :: b'') Hb' ltac:(discriminate)) as L.
  unfold stripped in *.
  rewrite bytes_to_int_app_aux in Hlen.
  change (bytes_to_int [0]) with 0 in Hlen.
  rewrite Z.mul_0_r, Z.add_0_r in Hlen.
  rewrite length_app in Hlen. cbn [List.length] in *. lia.
Qed.

Lemma stripped_blocks (blocks : list (list Z)) :
  Forall (fun block => is_bytes block /\ block <> []) blocks ->
  (List.length (List.concat (map stripped blocks))
   <= List.length (List.concat blocks))%nat
  /\ (List.length (List.concat (map stripped blocks))
      = List.length (List.concat blocks) ->
      Forall canonical_block blocks).
Proof.
  induction 1 as [|block blocks [Hb Hne] _ [IH1 IH2]]; cbn [map List.concat].
  - split; [lia | constructor].
  - rewrite !length_app.
    pose proof (stripped_length block Hb Hne) as L.
    split; [lia|]. intros E. constructor.
    + apply stripped_shorter; [exact Hb | exact Hne | lia].
    + apply IH2. lia.
Qed.

Lemma decrypt_loop_stripped (d n : Z) (blocks : list (list Z)) :
  forall cipher_blocks decrypted_bytes,
    Forall2 (fun block c => modexpo c d n = Ok (bytes_to_int block))
            blocks cipher_blocks ->
    decrypt_loop d n cipher_blocks decrypted_bytes
    = Ok (decrypted_bytes ++ List.concat (map stripped blocks)).
Proof.
  induction blocks as [|block blocks IH]; intros cipher_blocks acc F;
    inversion F as [|? c ? cs M F']; subst; cbn [decrypt_loop map List.concat].
  - rewrite List.app_nil_r. reflexivity.
  - rewrite M. cbn [bind]. rewrite (IH _ _ F'), <- List.app_assoc. reflexivity.
Qed.

Lemma blocks_of_bytes (max_block_size : Z) (message_bytes : list Z) :
  0 < max_block_size -> is_bytes message_bytes ->
  Forall (fun block => is_bytes block /\ block <> []
                       /\ (List.length block <= Z.to_nat max_block_size)%nat)
         (blocks_of max_block_size message_bytes).
Proof.
  intros Hk Hb. destruct (blocks_of_spec _ message_bytes Hk) as [_ Hall].
  eapply Forall_impl; [|exact Hall]. intros block [Hlen Hincl]. cbv beta.
  split; [|split; [|lia]].
  - apply Forall_forall. intros x Hx.
    unfold is_bytes in Hb. rewrite Forall_forall in Hb. auto.
  - intros ->. cbn [List.length] in Hlen. lia.
Qed.

(** What comes back from [decrypt] after [encrypt] under an RSA key. *)
Lemma decrypt_encrypt_bytes (p q e d : Z) (message message_bytes : list Z) :
  Z.prime p -> Z.prime q -> p <> q ->
  0 <= e -> 0 <= d -> (e * d) mod ((p - 1) * (q - 1)) = 1 ->
  8 < bit_length (p * q) ->
  is_str message -> utf8_encode message = Ok message_bytes ->
  (cipher_blocks <- encrypt message (e, p * q) ;;
   decrypt cipher_blocks (d, p * q))
  = Ok (utf8_decode_ignore
          (List.concat
             (map stripped
                  (blocks_of ((bit_length (p * q) + 7) / 8 - 1) message_bytes)))).
Proof.
  intros Hp Hq Hne He Hd Hed Hbits Hs Henc.
  pose proof (Z.prime_ge_2 p Hp). pose proof (Z.prime_ge_2 q Hq).
  set (n := p * q) in *.
  assert (1 < n) as Hn by (subst n; nia).
  assert (0 < (bit_length n + 7) / 8 - 1) as Hk by (Z.div_mod_to_equations; lia).
  rewrite encrypt_unfold by exact Hk. rewrite Henc. cbn [bind].
  unfold decrypt.
  pose proof (utf8_encode_bytes _ _ Hs Henc) as Hb.
  rewrite (decrypt_loop_stripped d n
             (blocks_of ((bit_length n + 7) / 8 - 1) message_bytes)).
  - reflexivity.
  - apply Forall2_map_r.
    eapply Forall_impl; [|exact (blocks_of_bytes _ _ Hk Hb)].
    intros block (Hbb & _ & Hlen). cbv beta.
    pose proof (block_below_modulus n block ltac:(lia) Hbb Hlen) as Hm.
    rewrite modexpo_loop_pow by lia. rewrite modexpo_spec by lia.
    f_equal. subst n. apply rsa_identity; assumption.
Qed.

(** X25. Under an RSA key of two distinct primes whose modulus has more than
    eight bits, [decrypt] after [encrypt] decodes the message bytes in which
    every block has been replaced by [int_to_bytes (bytes_to_int block)]:
    the blocks come back one by one, each without its trailing zero bytes. *)
Theorem decrypt_encrypt_stripped (p q e d : Z) (message message_bytes : list Z) :
  Z.prime p -> Z.prime q -> p <> q ->
  0 <= e -> 0 <= d -> (e * d) mod ((p - 1) * (q - 1)) = 1 ->
  8 < bit_length (p * q) ->
  is_str message -> utf8_encode message = Ok message_bytes ->
  (cipher_blocks <- encrypt message (e, p * q) ;;
   decrypt cipher_blocks (d, p * q))
  = Ok (utf8_decode_ignore
          (List.concat
             (map stripped
                  (blocks_of ((bit_length (p * q) + 7) / 8 - 1) message_bytes)))).
Proof. apply decrypt_encrypt_bytes. Qed.

Lemma decrypt_encrypt_stripped_witness :
  (cipher_blocks <- encrypt [72; 0; 0; 105; 0] (65537, 7681 * 257) ;;
   decrypt cipher_blocks (458753, 7681 * 257))
  = Ok (utf8_decode_ignore
          (List.concat
             (map stripped
                  (blocks_of ((bit_length (7681 * 257) + 7) / 8 - 1)
                             [72; 0; 0; 105; 0])))).
Proof.
  apply (decrypt_encrypt_stripped 7681 257 65537 458753
           [72; 0; 0; 105; 0] [72; 0; 0; 105; 0]).
  - apply prime_check_sound. vm_compute. reflexivity.
  - apply prime_check_sound. vm_compute. reflexivity.
  - lia.
  - lia.
  - lia.
  - vm_compute. reflexivity.
  - vm_compute. reflexivity.
  - repeat constructor; lia.
  - reflexivity.
Defined.

(** X26. Under such a key the round trip gives the message back exactly when
    every block of the message bytes is the single zero byte or ends in a
    non-zero byte; a block with a trailing zero byte always changes the
    result. *)
Theorem decrypt_encrypt_iff (p q e d : Z) (message message_bytes : list Z) :
  Z.prime p -> Z.prime q -> p <> q ->
  0 <= e -> 0 <= d -> (e * d) mod ((p - 1) * (q - 1)) = 1 ->
  8 < bit_length (p * q) ->
  is_str message -> utf8_encode message = Ok message_bytes ->
  ((cipher_blocks <- encrypt message (e, p * q) ;;
    decrypt cipher_blocks (d, p * q)) = Ok message
   <-> Forall canonical_block
              (blocks_of ((bit_length (p * q) + 7) / 8 - 1) message_bytes)).
Proof.
  intros Hp Hq Hne He Hd Hed Hbits Hs Henc.
  rewrite (decrypt_encrypt_bytes p q e d message message_bytes) by assumption.
  assert (0 < (bit_length (p * q) + 7) / 8 - 1) as Hk
    by (Z.div_mod_to_equations; lia).
  set (k := (bit_length (p * q) + 7) / 8 - 1) in *.
  pose proof (utf8_encode_bytes _ _ Hs Henc) as Hb.
  pose proof (blocks_of_bytes k message_bytes Hk Hb) as Hall.
  destruct (blocks_of_spec k message_bytes Hk) as [Hcat _].
  split.
  - intros E.
    assert (utf8_decode_ignore (List.concat (map stripped (blocks_of k message_bytes)))
            = message) as E' by congruence.
    clear E.
    pose proof (utf8_decode_length _ _ (Nat.le_refl _)
                  : (utf8_length (utf8_decode_ignore
                       (List.concat (map stripped (blocks_of k message_bytes))))
                     <= _)%nat) as L.
    rewrite E', <- (utf8_encode_length _ _ Henc) in L.
    destruct (stripped_blocks (blocks_of k message_bytes)) as [S1 S2].
    { eapply Forall_impl; [|exact Hall]. cbv beta. tauto. }
    apply S2. rewrite Hcat in *. lia.
  - intros F. f_equal.
    replace (map stripped (blocks_of k message_bytes))
      with (blocks_of k message_bytes).
    + rewrite Hcat. apply (utf8_decode_encode _ _ Hs Henc).
    + rewrite <- (map_id (blocks_of k message_bytes)) at 1.
      apply map_ext_in. intros block Hin. symmetry.
      rewrite Forall_forall in F, Hall.
      apply stripped_canonical; [apply Hall, Hin | apply F, Hin].
Qed.

Lemma decrypt_encrypt_iff_witness :
  (cipher_blocks <- encrypt [72; 0; 105] (65537, 7681 * 257) ;;
   decrypt cipher_blocks (458753, 7681 * 257)) = Ok [72; 0; 105]
  <-> Forall canonical_block
             (blocks_of ((bit_length (7681 * 257) + 7) / 8 - 1) [72; 0; 105]).
Proof.
  apply (decrypt_encrypt_iff 7681 257 65537 458753 [72; 0; 105] [72; 0; 105]).
  - apply prime_check_sound. vm_compute. reflexivity.
  - apply prime_check_sound. vm_compute. reflexivity.
  - lia.
  - lia.
  - lia.
  - vm_compute. reflexivity.
  - vm_compute. reflexivity.
  - repeat constructor; lia.
  - reflexivity.
Defined.

(** ** The first candidate decides *)

Lemma draw_first (seed bits : Z) :
  draw 1 (lcg_prng seed bits) = (2 ^ (bits / 2) * seed + 1) mod 2 ^ bits.
Proof. reflexivity. Qed.

Lemma find_p_first (fuel : nat) (generator : lcg) (g : rng) (p : Z)
    (generator' : lcg) (g' : rng) :
  find_p fuel generator g = Some (Ok (p, generator', g')) ->
  (p = draw 1 generator /\ generator' = advance 1 generator
   /\ is_prime fuel p 20 g = Some (Ok (true, g')))
  \/ exists k, (2 <= k)%nat /\ p = draw k generator
               /\ generator' = advance k generator.
Proof.
  destruct fuel as [|fuel]; cbn [find_p]; [discriminate|].
  rewrite next_advance.
  destruct (is_prime (S fuel) (draw 1 generator) 20 g) as [[[b g0]|x]|] eqn:P;
    cbn [sbind]; try discriminate.
  destruct b.
  - intros [= <- <- <-]. left. auto.
  - intros E. right. apply find_p_draw in E.
    destruct E as (k & Hk & -> & -> & _).
    exists (S k). rewrite advance_add, draw_advance.
    repeat split; auto with arith.
Qed.

Lemma find_q_accepted (fuel : nat) : forall p generator g q generator' g',
  find_q fuel p generator g = Some (Ok (q, generator', g')) ->
  exists g0, is_prime fuel q 20 g0 = Some (Ok (true, g')).
Proof.
  induction fuel as [|fuel IH]; intros p generator g q generator' g' E;
    cbn [find_q] in E; [discriminate|].
  rewrite next_advance in E.
  assert (forall g0,
            find_q fuel p (advance 1 generator) g0
            = Some (Ok (q, generator', g')) ->
            exists g1, is_prime (S fuel) q 20 g1 = Some (Ok (true, g'))) as Rec.
  { intros g0 E0. apply IH in E0. destruct E0 as [g1 E0]. exists g1.
    eapply is_prime_mono; [|exact E0]. lia. }
  destruct (negb (p =? draw 1 generator)); [|eapply Rec; exact E].
  destruct (is_prime (S fuel) (draw 1 generator) 20 g) as [[[b g0]|x]|] eqn:P;
    cbn [sbind] in E; try discriminate.
  destruct b; [|eapply Rec; exact E].
  injection E as <- <- <-. exists g. exact P.
Qed.

Lemma generate_prime_pair_even_candidates (fuel : nat) (bits seed : Z)
    (g g' : rng) (p q : Z) :
  2 <= bits -> bits mod 2 = 0 ->
  generate_prime_pair fuel bits seed g = Some (Ok (p, q, g')) ->
  p = (2 ^ (bits / 2) * seed + 1) mod 2 ^ bits
  /\ q = 2 ^ (bits / 2) + 1
  /\ p <> q
  /\ (exists g1, is_prime fuel p 20 g = Some (Ok (true, g1)))
  /\ (exists g2, is_prime fuel q 20 g2 = Some (Ok (true, g'))).
Proof.
  intros Hb Heven E. unfold generate_prime_pair in E.
  destruct (find_p fuel (lcg_prng seed bits) g) as [[[[p0 gen0] g0]|x]|] eqn:P;
    cbn [sbind] in E; try discriminate.
  destruct (find_q fuel p0 gen0 g0) as [[[[q0 gen1] g1]|x]|] eqn:Q;
    cbn [sbind] in E; try discriminate.
  injection E as <- <- <-.
  pose proof (find_q_accepted _ _ _ _ _ _ _ Q) as A.
  apply find_q_draw in Q. destruct Q as (k & Hk & _ & Eq & _ & Hne).
  apply find_p_first in P.
  destruct P as [(Ep & -> & Ap) | (i & Hi & Ep & ->)];
    rewrite draw_advance in Eq;
    rewrite draw_even_constant in Eq by (assumption || lia).
  - rewrite draw_first in Ep. subst q0. repeat split; eauto.
  - rewrite draw_even_constant in Ep by (assumption || lia). congruence.
Qed.

(** X27. With an even number of [bits >= 2] only one pair can come out of
    [generate_prime_pair]: [p] is the very first number of the generator,
    [(2^(bits/2) * seed + 1) mod 2^bits], accepted by [is_prime] at once, and
    [q] is [2^(bits/2) + 1], accepted by [is_prime] in some turn of the
    second loop. *)
Theorem generate_prime_pair_even_first (fuel : nat) (bits seed : Z)
    (g g' : rng) (p q : Z) :
  2 <= bits -> bits mod 2 = 0 ->
  generate_prime_pair fuel bits seed g = Some (Ok (p, q, g')) ->
  p = (2 ^ (bits / 2) * seed + 1) mod 2 ^ bits
  /\ q = 2 ^ (bits / 2) + 1
  /\ p <> q
  /\ (exists g1, is_prime fuel p 20 g = Some (Ok (true, g1)))
  /\ (exists g2, is_prime fuel q 20 g2 = Some (Ok (true, g'))).
Proof. apply generate_prime_pair_even_candidates. Qed.

Lemma generate_prime_pair_even_first_witness :
  7681 = (2 ^ (16 / 2) * 30 + 1) mod 2 ^ 16
  /\ 257 = 2 ^ (16 / 2) + 1
  /\ 7681 <> 257
  /\ (exists g1, is_prime 64 7681 20 rng0 = Some (Ok (true, g1)))
  /\ (exists g2, is_prime 64 257 20 g2
                 = Some (Ok (true, {| draws := fun _ => 0; cursor := 40 |}))).
Proof.
  apply (generate_prime_pair_even_first 64 16 30 rng0 _ 7681 257);
    [lia | reflexivity | vm_compute; reflexivity].
Defined.

(** X28. With an even number of [bits >= 2], when [is_prime] rejects the
    first number of the generator, or that number is [2^(bits/2) + 1] itself,
    [generate_prime_pair] never returns: every later candidate is the same
    number, so one of the two loops runs for ever. *)
Theorem generate_prime_pair_even_diverges (f0 fuel : nat) (bits seed : Z)
    (g g1 : rng) :
  2 <= bits -> bits mod 2 = 0 ->
  (2 ^ (bits / 2) * seed + 1) mod 2 ^ bits = 2 ^ (bits / 2) + 1
  \/ is_prime f0 ((2 ^ (bits / 2) * seed + 1) mod 2 ^ bits) 20 g
     = Some (Ok (false, g1)) ->
  generate_prime_pair fuel bits seed g = None.
Proof.
  intros Hb Heven H.
  destruct (generate_prime_pair fuel bits seed g) as [[[[p q] g']|x]|] eqn:E;
    [| |reflexivity]; exfalso.
  - apply generate_prime_pair_even_candidates in E; [|assumption..].
    destruct E as (-> & -> & Hne & [g2 A] & _).
    destruct H as [H | H]; [congruence|].
    apply (is_prime_mono f0 (Nat.max f0 fuel)) in H; [|lia].
    apply (is_prime_mono fuel (Nat.max f0 fuel)) in A; [|lia].
    congruence.
  - exact (generate_prime_pair_no_raise _ _ _ _ _ E).
Qed.

Lemma generate_prime_pair_even_diverges_witness :
  generate_prime_pair 1000 4 2 rng0 = None
  /\ generate_prime_pair 1000 1024 1 rng0 = None.
Proof.
  split.
  - eapply (generate_prime_pair_even_diverges 10 1000 4 2 rng0);
      [lia | reflexivity | right; vm_compute; reflexivity].
  - eapply (generate_prime_pair_even_diverges 0 1000 1024 1 rng0 rng0);
      [lia | reflexivity | left; vm_compute; reflexivity].
Defined.

(** ** Blocks are encrypted one by one *)

Lemma utf8_encode_app (s1 : list Z) : forall s2 b1 b2,
  utf8_encode s1 = Ok b1 -> utf8_encode s2 = Ok b2 ->
  utf8_encode (s1 ++ s2) = Ok (b1 ++ b2).
Proof.
  induction s1 as [|c s1 IH]; intros s2 b1 b2 E1 E2; cbn [utf8_encode app] in *.
  - injection E1 as <-. exact E2.
  - destruct (utf8_encode_cp c) as [b0|]; [|discriminate]. cbn [bind] in *.
    destruct (utf8_encode s1) as [bs|] eqn:E; [|discriminate].
    cbn [bind] in E1. injection E1 as <-.
    rewrite (IH s2 bs b2 eq_refl E2). cbn [bind].
    rewrite List.app_assoc. reflexivity.
Qed.

Lemma chunks_app (k : nat) : (0 < k)%nat ->
  forall (c1 : nat) (b1 b2 : list Z) (c2 : nat),
  List.length b1 = (c1 * k)%nat ->
  map (chunk k (b1 ++ b2)) (seq 0 (c1 + c2))
  = map (chunk k b1) (seq 0 c1) ++ map (chunk k b2) (seq 0 c2).
Proof.
  intros Hk. induction c1 as [|c1 IH]; intros b1 b2 c2 Hlen.
  - destruct b1; [reflexivity | discriminate].
  - cbn [Nat.add seq map app]. rewrite <- !seq_shift, !map_map.
    rewrite (map_ext _ (chunk k (skipn k (b1 ++ b2))))
      by (intros j; apply chunk_succ; exact Hk).
    rewrite (map_ext (fun x => chunk k b1 (S x)) (chunk k (skipn k b1)))
      by (intros j; apply chunk_succ; exact Hk).
    assert (k <= List.length b1)%nat as Hle by (cbn [Nat.mul] in Hlen; lia).
    rewrite skipn_app.
    replace (k - List.length b1)%nat with 0%nat by lia. cbn [skipn].
    rewrite IH by (rewrite length_skipn; cbn [Nat.mul] in Hlen; lia).
    f_equal. unfold chunk. cbn [Nat.mul skipn].
    rewrite firstn_app.
    replace (k - List.length b1)%nat with 0%nat by lia.
    cbn [firstn]. apply List.app_nil_r.
Qed.

Lemma blocks_of_app (max_block_size : Z) (b1 b2 : list Z) :
  0 < max_block_size ->
  Z.of_nat (List.length b1) mod max_block_size = 0 ->
  blocks_of max_block_size (b1 ++ b2)
  = blocks_of max_block_size b1 ++ blocks_of max_block_size b2.
Proof.
  intros Hk Hmod. rewrite !blocks_of_chunks by exact Hk.
  set (k := max_block_size) in *.
  pose proof (Z.div_mod (Z.of_nat (List.length b1)) k ltac:(lia)) as D.
  rewrite Hmod, Z.add_0_r in D.
  set (c1 := Z.of_nat (List.length b1) / k) in *.
  assert (0 <= c1) by (subst c1; apply Z.div_pos; lia).
  clearbody c1.
  assert (0 <= (Z.of_nat (List.length b2) + k - 1) / k)
    by (apply Z.div_pos; lia).
  rewrite length_app, Nat2Z.inj_add.
  replace ((Z.of_nat (List.length b1) + Z.of_nat (List.length b2) + k - 1) / k)
    with (c1 + (Z.of_nat (List.length b2) + k - 1) / k).
  2: { rewrite D.
       replace (k * c1 + Z.of_nat (List.length b2) + k - 1)
         with (c1 * k + (Z.of_nat (List.length b2) + k - 1)) by ring.
       rewrite Z.div_add_l by lia. reflexivity. }
  replace ((Z.of_nat (List.length b1) + k - 1) / k) with c1.
  2: { rewrite D.
       replace (k * c1 + k - 1) with (c1 * k + (k - 1)) by ring.
       rewrite Z.div_add_l, (Z.div_small (k - 1)) by lia. lia. }
  rewrite Z2Nat.inj_add by lia.
  apply chunks_app; [lia|].
  apply Nat2Z.inj. rewrite Nat2Z.inj_mul, !Z2Nat.id by lia. lia.
Qed.

(** X29. [encrypt] works block by block, with nothing carried from one block
    to the next: when the bytes of [m1] fill whole blocks, the ciphertext of
    [m1 + m2] is the ciphertext of [m1] followed by that of [m2]. *)
Theorem encrypt_app (e n : Z) (m1 m2 b1 : list Z) (c1 c2 : list Z) :
  8 < bit_length n ->
  utf8_encode m1 = Ok b1 ->
  Z.of_nat (List.length b1) mod ((bit_length n + 7) / 8 - 1) = 0 ->
  encrypt m1 (e, n) = Ok c1 -> encrypt m2 (e, n) = Ok c2 ->
  encrypt (m1 ++ m2) (e, n) = Ok (c1 ++ c2).
Proof.
  intros Hbits E1 Hmod H1 H2.
  assert (0 < (bit_length n + 7) / 8 - 1) as Hk by (Z.div_mod_to_equations; lia).
  rewrite encrypt_unfold in * by exact Hk.
  rewrite E1 in H1. cbn [bind] in H1.
  destruct (utf8_encode m2) as [b2|] eqn:E2; [|discriminate].
  cbn [bind] in H2.
  rewrite (utf8_encode_app m1 m2 b1 b2 E1 E2). cbn [bind].
  rewrite blocks_of_app, map_app by assumption.
  congruence.
Qed.

Lemma encrypt_app_witness :
  encrypt ([72; 105] ++ [33]) (65537, 1974017) = Ok ([894327] ++ [65568]).
Proof.
  apply (encrypt_app 65537 1974017 [72; 105] [33] [72; 105]);
    vm_compute; reflexivity.
Defined.

(** ** The verdicts of [is_prime] that use no entropy *)

(** X30. Where [is_prime] runs no Miller-Rabin round it draws nothing: for
    [n <= 4] and for even [n] its verdict is exact ([True] for 2 and 3 only);
    with [k <= 0] rounds it accepts every odd [n >= 5], prime or not. *)
Theorem is_prime_without_rounds (fuel : nat) (n k : Z) (g : rng) :
  (Z.to_nat (Z.log2 n) + 1 < fuel)%nat ->
  (n <= 4 \/ n mod 2 = 0 ->
   is_prime fuel n k g = Some (Ok ((n =? 2) || (n =? 3), g))
   /\ (Z.prime n <-> n = 2 \/ n = 3))
  /\ (5 <= n -> n mod 2 = 1 -> k <= 0 ->
      is_prime fuel n k g = Some (Ok (true, g))).
Proof.
  intros Hf. split.
  - intros Hn. split.
    + unfold is_prime, lift.
      destruct (Z.leb_spec n 1); cbn [orb].
      { destruct (Z.eqb_spec n 2); [lia|]. destruct (Z.eqb_spec n 3); [lia|].
        reflexivity. }
      destruct (Z.eqb_spec n 4) as [->|]; [reflexivity|].
      destruct (Z.leb_spec n 3).
      { assert (n = 2 \/ n = 3) as [-> | ->] by lia; reflexivity. }
      destruct (Z.eqb_spec (n mod 2) 0); [|lia].
      destruct (Z.eqb_spec n 2); [lia|]. destruct (Z.eqb_spec n 3); [lia|].
      reflexivity.
    + split.
      * intros Hp. pose proof (Z.prime_ge_2 n Hp).
        destruct (Z.eq_dec n 2); [auto|]. destruct (Z.eq_dec n 3); [auto|].
        exfalso. destruct Hp as [_ Hp]. apply (Hp 2); [lia|].
        apply Z.mod_divide; [lia|].
        destruct Hn as [Hn | Hn]; [|exact Hn].
        assert (n = 4) as -> by lia. reflexivity.
      * intros [-> | ->]; [apply Z.prime_2 | apply Z.prime_3].
  - intros Hn Hodd Hk. unfold is_prime, lift.
    destruct (Z.leb_spec n 1); [lia|].
    destruct (Z.eqb_spec n 4); [lia|]. cbn [orb].
    destruct (Z.leb_spec n 3); [lia|].
    destruct (Z.eqb_spec (n mod 2) 0); [lia|].
    assert (Z.log2 (n - 1) <= Z.log2 n) by (apply Z.log2_le_mono; lia).
    destruct (halve_loop_returns fuel (n - 1) ltac:(lia) ltac:(lia))
      as (d & r & -> & _).
    cbn [sbind]. replace (Z.to_nat k) with 0%nat by lia. reflexivity.
Qed.

Lemma is_prime_without_rounds_witness :
  (9 <= 4 \/ 9 mod 2 = 0 ->
   is_prime 10 9 0 rng0 = Some (Ok ((9 =? 2) || (9 =? 3), rng0))
   /\ (Z.prime 9 <-> 9 = 2 \/ 9 = 3))
  /\ (5 <= 9 -> 9 mod 2 = 1 -> 0 <= 0 ->
      is_prime 10 9 0 rng0 = Some (Ok (true, rng0))).
Proof. apply (is_prime_without_rounds 10 9 0 rng0). vm_compute. lia. Defined.
